(** * lunar-lander: the document store, the key/value store, the scripting
      bridge and the runtime manager, embedded from the Go sources.

    Part I holds the program, one module per component:
    - [Float64], [GoInt]: the two machine number types the store computes with.
    - [DocStore]: package [db] of [internal/sugardb/store.go]
      ([Open], [Query], [Insert], [Update], [Delete], [saveLocked], [maxID],
      [cloneRecord], [matches], [valuesEqual], [numberValue]) on values.
    - [Aliasing]: the same [cloneRecord], [Insert] and [Query] on a heap of map
      objects, where it matters which maps are shared.
    - [KV]: package [sugardb] ([Get], [Set], [Delete], [Keys]) and the
      [sugarKeys] binding of [internal/server/sugardb_module.go].
    - [Bridge]: the handler closure of [attachRoute] and [parseLuaResponse].
    - [Lifecycle]: [runtimeState.ServeHTTP], [runtimeState.Swap],
      [BuildRuntime] and the reload callback of [cmd/lunar/main.go].

    Part II holds the properties, one module [...Facts] per component.

    Conventions of the embedding:
    - Go's [int] is the 64-bit two's complement integer, a [Z] with its
      wrap-around written out ([GoInt.wrap]); [float64] is IEEE 754 binary64
      ([SpecFloat]); [int(x)] of a [float64] out of range is the amd64 result.
    - a Go map is a [gmap]; a nil map and an empty map are the same value.
      Where the order of [range] over a map can be observed ([KV.Keys]) it is
      left open.
    - the file system and [encoding/json] appear through their outcomes
      ([DocStore.FileRead], [DocStore.SaveIO]); [strconv.ParseFloat] is the
      parameter of the class [DocStore.Strconv].
    - [sync.RWMutex] is a count of readers and a writer flag; goroutines
      interleave at the statements that touch the lock or the runtime. *)

From Stdlib Require Import ZArith Floats.SpecFloat Lia Ascii String.

From stdpp Require Import gmap strings list fin_maps sorting.

#[local] Set Warnings "-register-all".

#[local] Open Scope Z_scope.

(** * Part I: the program *)

(** ** Go's [float64] *)

Module Float64.

(** IEEE 754 binary64: 53 bits of precision, infinities at exponent 1024. *)
Definition prec : Z := 53.

Definition emax : Z := 1024.

Definition float64 := spec_float.

Definition zero : float64 := S754_zero false.

(** [float64(n)] for an integer [n]: round to nearest, ties to even. *)
Definition of_int (z : Z) : float64 := binary_normalize prec emax z 0 false.

(** [float64(x)] for a [float32] [x]: every binary32 number is a binary64
    number, the conversion re-normalises the mantissa. *)
Definition of_float32 (f : spec_float) : float64 :=
  match f with
  | S754_finite s m e => binary_normalize prec emax (cond_Zopp s (Zpos m)) e s
  | _ => f
  end.

(** Go's [==] on [float64]: NaN differs from everything, [+0 == -0]. *)
Definition eqb (x y : float64) : bool := SFeqb x y.

Definition valid (x : float64) : bool := valid_binary prec emax x.

Definition is_finite (x : float64) : bool :=
  match x with
  | S754_zero _ | S754_finite _ _ _ => true
  | _ => false
  end.

(** The number a finite float denotes, counted in units of [2^-1074] (the
    smallest positive binary64 number): an integer for every valid float. *)
Definition units (x : float64) : Z :=
  match x with
  | S754_finite s m e => cond_Zopp s (Zpos m * 2 ^ (e + 1074))
  | _ => 0
  end.

(** The same count for an integer. *)
Definition int_units (n : Z) : Z := n * 2 ^ 1074.

(** The integer part, rounding toward zero. *)
Definition trunc (x : float64) : Z :=
  match x with
  | S754_finite s m e =>
      cond_Zopp s (match e with
                   | Zneg k => Z.shiftr (Zpos m) (Zpos k)
                   | _ => Z.shiftl (Zpos m) e
                   end)
  | _ => 0
  end.

End Float64.

(** ** Go's [int] on a 64-bit platform *)

Module GoInt.

Definition min_int : Z := - 2 ^ 63.

Definition max_int : Z := 2 ^ 63 - 1.

Definition in_range (z : Z) : bool := (min_int <=? z) && (z <=? max_int).

(** Two's complement wrap-around of an arithmetic result. *)
Definition wrap (z : Z) : Z := (z + 2 ^ 63) mod 2 ^ 64 - 2 ^ 63.

(** [s.nextID++] *)
Definition incr (z : Z) : Z := wrap (z + 1).

(** [int(x)] for a [float64] [x]: truncation toward zero. Go leaves the
    result open when the truncated value does not fit (or [x] is NaN or an
    infinity); the amd64 conversion instruction then yields [min_int], which
    is what this definition returns. *)
Definition of_float64 (x : Float64.float64) : Z :=
  if Float64.is_finite x && in_range (Float64.trunc x) then Float64.trunc x
  else min_int.

End GoInt.

(** ** The document store: package [db] of [internal/sugardb/store.go] *)

Module DocStore.

Definition error := string.

(** The dynamic values ([any]) a record holds: the types [numberValue]
    switches on, and those the JSON decoder and the Lua bridge produce. Maps
    and slices nested in a value are allocated ones (the decoder and
    [luaTableToMap] never store a nil map in an [any]). *)
Inductive value :=
| VNil
| VBool (b : bool)
| VInt (n : Z)
| VInt64 (n : Z)
| VFloat64 (x : Float64.float64)
| VFloat32 (x : spec_float)
| VJsonNumber (s : string)
| VString (s : string)
| VMap (m : gmap string value)
| VSlice (l : list value).

(** [type Record map[string]any]. A nil [Record] reads like the empty one;
    the model keeps the difference only where the source tests for it (the
    argument of [Insert]). *)
Abbreviation Record := (gmap string value).

(** [reflect.DeepEqual] on two [any]: identical dynamic types, then by kind;
    floats with [==], maps key by key, slices element by element. *)
Fixpoint DeepEqual (x y : value) {struct x} : bool :=
  match x, y with
  | VNil, VNil => true
  | VBool a, VBool b => bool_decide (a = b)
  | VInt a, VInt b => bool_decide (a = b)
  | VInt64 a, VInt64 b => bool_decide (a = b)
  | VFloat64 a, VFloat64 b => Float64.eqb a b
  | VFloat32 a, VFloat32 b => SFeqb a b
  | VJsonNumber a, VJsonNumber b => bool_decide (a = b)
  | VString a, VString b => bool_decide (a = b)
  | VMap m, VMap m' =>
      bool_decide (size m = size m') &&
      map_fold (fun k v acc =>
                  acc && match m' !! k with
                         | Some w => DeepEqual v w
                         | None => false
                         end) true m
  | VSlice l, VSlice l' =>
      (fix go (l l' : list value) : bool :=
         match l, l' with
         | [], [] => true
         | a :: l, b :: l' => DeepEqual a b && go l l'
         | _, _ => false
         end) l l'
  | _, _ => false
  end.

(** [cloneRecord]: a new map, filled entry by entry. *)
Definition cloneRecord (record : Record) : Record :=
  map_fold (fun key value copy => <[key := value]> copy) ∅ record.

Record Store := {
  path : string;
  data : gmap string (list Record);
  nextID : Z;
}.

(** What [Open] finds at [path]: the outcomes of [os.Stat], [os.ReadFile]
    and [json.Unmarshal] into [map[string][]Record]. [Unmarshalled d] is a
    file holding a JSON object of arrays of objects (with no [null] in the
    place of one) that decodes to [d]. *)
Inductive FileRead :=
| StatNotExist
| StatError (err : error)
| ReadFileError (err : error)
| PayloadEmpty
| UnmarshalError (err : error)
| Unmarshalled (d : gmap string (list Record)).

(** What the three steps of one [saveLocked] call return when they run:
    the [MkdirAll] step ([None] also when the directory is ["."] and the call
    is skipped), [json.MarshalIndent], [os.WriteFile]. *)
Record SaveIO := {
  mkdirAll : option error;
  marshalIndent : option error;
  writeFile : option error;
}.

Definition io_ok : SaveIO :=
  {| mkdirAll := None; marshalIndent := None; writeFile := None |}.

Definition saveLocked (io : SaveIO) (s : Store) : option error :=
  if decide (path s = "") then None
  else match mkdirAll io with
       | Some err => Some err
       | None =>
           match marshalIndent io with
           | Some err => Some err
           | None => writeFile io
           end
       end.

(** [json.Number.Float64], that is [strconv.ParseFloat(s, 64)]: [Some x]
    when it returns [x] and no error. The store is written against it. *)
Class Strconv := ParseFloat : string -> option Float64.float64.

Section Store.

Context {strconv : Strconv}.

Definition numberValue (v : value) : Float64.float64 * bool :=
  match v with
  | VInt typed => (Float64.of_int typed, true)
  | VInt64 typed => (Float64.of_int typed, true)
  | VFloat64 typed => (typed, true)
  | VFloat32 typed => (Float64.of_float32 typed, true)
  | VJsonNumber typed =>
      match ParseFloat typed with
      | None => (Float64.zero, false)
      | Some parsed => (parsed, true)
      end
  | _ => (Float64.zero, false)
  end.

Definition valuesEqual (left right : value) : bool :=
  let '(leftNumber, leftIsNumber) := numberValue left in
  let '(rightNumber, rightIsNumber) := numberValue right in
  if leftIsNumber && rightIsNumber then Float64.eqb leftNumber rightNumber
  else DeepEqual left right.

(** The body of the loop of [matches] for one criterion. *)
Definition criterion_holds (record : Record) (kv : string * value) : bool :=
  match record !! kv.1 with
  | None => false
  | Some actual => valuesEqual actual kv.2
  end.

(** The loop of [matches] over the criteria in the order [order] visits
    them, leaving at the first criterion that fails. *)
Fixpoint matches_loop (record : Record) (order : list (string * value)) : bool :=
  match order with
  | [] => true
  | kv :: rest => if criterion_holds record kv then matches_loop record rest else false
  end.

Definition matches (record criteria : Record) : bool :=
  if bool_decide (size criteria = 0%nat) then true
  else matches_loop record (map_to_list criteria).

(** One step of the inner loop of [maxID]; [record["id"]] is nil when the
    key is absent. *)
Definition maxID_step (maxID : Z) (record : Record) : Z :=
  let '(value, ok) := numberValue (default VNil (record !! "id")) in
  if ok then
    if GoInt.of_float64 value >? maxID then GoInt.of_float64 value else maxID
  else maxID.

Definition maxID_of (d : gmap string (list Record)) : Z :=
  map_fold (fun _ records maxID => foldl maxID_step maxID records) 0 d.

Definition maxID (s : Store) : Z := maxID_of (data s).

Definition Open (path : string) (file : FileRead) : option Store * option error :=
  let store := {| path := path; data := ∅; nextID := 1 |} in
  if decide (path = "") then (Some store, None)
  else match file with
       | StatNotExist => (Some store, None)
       | StatError err => (None, Some err)
       | ReadFileError err => (None, Some err)
       | PayloadEmpty => (Some store, None)
       | UnmarshalError err => (None, Some err)
       | Unmarshalled d =>
           let store := {| path := path; data := d; nextID := 1 |} in
           (Some {| path := path; data := d;
                    nextID := GoInt.wrap (maxID store + 1) |}, None)
       end.

Definition Query (collection : string) (criteria : Record) (s : Store)
  : (list Record * option error) * Store :=
  if decide (collection = "") then (([], Some "collection is required"), s)
  else
    let records := data s !!! collection in
    let result :=
      foldl (fun result record =>
               if matches record criteria then result ++ [cloneRecord record]
               else result) [] records in
    ((result, None), s).

(** [Insert]; [record] is [None] for a nil map. *)
Definition Insert (io : SaveIO) (collection : string) (record : option Record)
    (s : Store) : (option Record * option error) * Store :=
  if decide (collection = "") then ((None, Some "collection is required"), s)
  else
    let record := match record with None => ∅ | Some r => r end in
    let copy := cloneRecord record in
    let '(copy, next) :=
      match copy !! "id" with
      | Some _ => (copy, nextID s)
      | None => (<["id" := VInt (nextID s)]> copy, GoInt.incr (nextID s))
      end in
    let s' := {| path := path s;
                 data := <[collection := (data s !!! collection) ++ [copy]]> (data s);
                 nextID := next |} in
    match saveLocked io s' with
    | Some err => ((None, Some err), s')
    | None => ((Some (cloneRecord copy), None), s')
    end.

(** The inner loop of [Update]: [record[key] = value] for every entry of
    [updates]. *)
Definition apply_updates (updates record : Record) : Record :=
  map_fold (fun key value record => <[key := value]> record) record updates.

Definition Update (io : SaveIO) (collection : string) (criteria updates : Record)
    (s : Store) : (Z * option error) * Store :=
  if decide (collection = "") then ((0, Some "collection is required"), s)
  else
    let records := data s !!! collection in
    let '(records, updated) :=
      foldl (fun '(done, updated) record =>
               if negb (matches record criteria) then (done ++ [record], updated)
               else (done ++ [apply_updates updates record], updated + 1))
            ([], 0) records in
    let s' := {| path := path s;
                 data := <[collection := records]> (data s);
                 nextID := nextID s |} in
    match saveLocked io s' with
    | Some err => ((0, Some err), s')
    | None => ((updated, None), s')
    end.

Definition Delete (io : SaveIO) (collection : string) (criteria : Record)
    (s : Store) : (Z * option error) * Store :=
  if decide (collection = "") then ((0, Some "collection is required"), s)
  else
    let records := data s !!! collection in
    let '(remaining, deleted) :=
      foldl (fun '(remaining, deleted) record =>
               if matches record criteria then (remaining, deleted + 1)
               else (remaining ++ [record], deleted))
            ([], 0) records in
    let s' := {| path := path s;
                 data := <[collection := remaining]> (data s);
                 nextID := nextID s |} in
    match saveLocked io s' with
    | Some err => ((0, Some err), s')
    | None => ((deleted, None), s')
    end.

(** *** Calls over a store's lifetime *)

(** One call of the public API. *)
Inductive call :=
| CallQuery (collection : string) (criteria : Record)
| CallInsert (io : SaveIO) (collection : string) (record : option Record)
| CallUpdate (io : SaveIO) (collection : string) (criteria updates : Record)
| CallDelete (io : SaveIO) (collection : string) (criteria : Record).

Definition after (c : call) (s : Store) : Store :=
  match c with
  | CallQuery collection criteria => (Query collection criteria s).2
  | CallInsert io collection record => (Insert io collection record s).2
  | CallUpdate io collection criteria updates => (Update io collection criteria updates s).2
  | CallDelete io collection criteria => (Delete io collection criteria s).2
  end.

(** The id a call takes from the counter: an [Insert] that gets past the
    collection check with a record that has no ["id"]. *)
Definition issued (c : call) (s : Store) : option Z :=
  match c with
  | CallInsert _ collection record =>
      if decide (collection = "") then None
      else match default ∅ record !! "id" with
           | Some _ => None
           | None => Some (nextID s)
           end
  | _ => None
  end.

Fixpoint run (calls : list call) (s : Store) : Store :=
  match calls with
  | [] => s
  | c :: calls => run calls (after c s)
  end.

(** The ids issued by a sequence of calls, in call order. *)
Fixpoint ids_issued (calls : list call) (s : Store) : list Z :=
  match calls with
  | [] => []
  | c :: calls =>
      match issued c s with
      | Some n => n :: ids_issued calls (after c s)
      | None => ids_issued calls (after c s)
      end
  end.

(** *** What the claims speak of *)




(** The number a numeric value stands for, in units of [2^-1074], for the
    values whose conversion to [float64] is exact: integers up to [2^53] in
    magnitude and valid finite floats. *)
Definition exact_number (v : value) : option Z :=
  match v with
  | VInt n | VInt64 n =>
      if (- 2 ^ 53 <=? n) && (n <=? 2 ^ 53) then Some (Float64.int_units n) else None
  | VFloat64 x =>
      if Float64.valid x && Float64.is_finite x then Some (Float64.units x) else None
  | VFloat32 x =>
      if valid_binary 24 128 x && Float64.is_finite x then Some (Float64.units x) else None
  | _ => None
  end.

End Store.

(** *** Example data *)

(** [strconv.ParseFloat] on the unsigned decimal integer literals (["0"],
    ["42"], ...), which it reads as the nearest [float64], with a range error
    when that is an infinity. The examples below are run with it; none of
    them holds a [json.Number] of another form. *)
Fixpoint decimal_digits (s : string) (acc : Z) : option Z :=
  match s with
  | EmptyString => Some acc
  | String c rest =>
      let n := Z.of_N (Ascii.N_of_ascii c) in
      if (48 <=? n) && (n <=? 57) then decimal_digits rest (10 * acc + (n - 48))
      else None
  end.

Definition ParseFloat_decimal (s : string) : option Float64.float64 :=
  match s with
  | EmptyString => None
  | _ =>
      match decimal_digits s 0 with
      | Some n =>
          match Float64.of_int n with
          | S754_infinity _ => None
          | x => Some x
          end
      | None => None
      end
  end.

#[local] Instance strconv_decimal : Strconv := ParseFloat_decimal.

Definition ada : Record :=
  {[ "name" := VString "Ada"; "role" := VString "pilot" ]}.

Definition memory_store : Store := {| path := ""; data := ∅; nextID := 1 |}.

Definition store_ada : Store :=
  (Insert io_ok "users" (Some ada) {| path := "db.json"; data := ∅; nextID := 1 |}).2.

(** A save that fails at [os.WriteFile]. *)
Definition io_readonly : SaveIO :=
  {| mkdirAll := None; marshalIndent := None;
     writeFile := Some "open db.json: read-only file system" |}.

(** A store file with a large id, as [Insert] itself writes it when a
    script supplies the id: [9223372036854774784] is [2^63 - 1024], a
    [float64]. *)
Definition large_id_file : gmap string (list Record) :=
  {[ "c" := [ {[ "id" := VFloat64 (Float64.of_int 9223372036854774784) ]} ] ]}.

Definition reopened : Store :=
  default memory_store (Open "db.json" (Unmarshalled large_id_file)).1.

Definition insert_blank : call := CallInsert io_ok "c" None.

(** The store after reopening and 1022 inserts. *)
Definition at_max_int : Store :=
  run (replicate 1022 insert_blank) reopened.


End DocStore.

(** ** The document store on a heap: which maps are shared *)

Module Aliasing.

Import DocStore.

(** The address of a map or of a slice's backing array. *)
Abbreviation loc := positive.

(** An [any] as Go holds it: a scalar by value, a map or a slice by
    reference. *)
Inductive hvalue :=
| HNil
| HBool (b : bool)
| HInt (n : Z)
| HFloat64 (x : Float64.float64)
| HString (s : string)
| HMap (l : loc)
| HSlice (l : loc).

Inductive object :=
| OMap (entries : gmap string hvalue)
| OArray (elems : list hvalue).

Abbreviation heap := (gmap loc object).

(** The entries of the map at [l]; none for a nil map or a dangling one. *)
Definition entries_at (h : heap) (l : option loc) : gmap string hvalue :=
  match l with
  | Some l => match h !! l with
              | Some (OMap entries) => entries
              | _ => ∅
              end
  | None => ∅
  end.

(** [make(Record, n)]: a new, empty map. *)
Definition make (h : heap) : loc * heap :=
  let l := fresh (dom h) in (l, <[l := OMap ∅]> h).

(** [m[key] = value] on the map at [l]. *)
Definition assign (l : loc) (key : string) (value : hvalue) (h : heap) : heap :=
  <[l := OMap (<[key := value]> (entries_at h (Some l)))]> h.

(** [cloneRecord]: the new map gets the entries of [record], each value as
    it is, a reference as the same reference. *)
Definition cloneRecord (record : option loc) (h : heap) : loc * heap :=
  let '(copy, h) := make h in
  (copy, map_fold (fun key value h => assign copy key value h) h (entries_at h record)).

Record Store := {
  path : string;
  data : gmap string (list loc);
  nextID : Z;
}.

Definition saveLocked (io : SaveIO) (s : Store) : option error :=
  DocStore.saveLocked io {| DocStore.path := path s; DocStore.data := ∅;
                            DocStore.nextID := nextID s |}.

(** What the store holds, as values: the object graph under [v] unfolded to
    depth [depth]. *)
Fixpoint view (depth : nat) (h : heap) (v : hvalue) : value :=
  match depth with
  | O => VNil
  | S depth =>
      match v with
      | HNil => VNil
      | HBool b => VBool b
      | HInt n => VInt n
      | HFloat64 x => VFloat64 x
      | HString s => VString s
      | HMap l =>
          match h !! l with
          | Some (OMap entries) => VMap (view depth h <$> entries)
          | _ => VNil
          end
      | HSlice l =>
          match h !! l with
          | Some (OArray elems) => VSlice (view depth h <$> elems)
          | _ => VNil
          end
      end
  end.

(** A record of the store, and the store, as the values [DocStore] works
    on. *)
Definition view_record (depth : nat) (h : heap) (l : loc) : DocStore.Record :=
  view depth h <$> entries_at h (Some l).

Definition view_store (depth : nat) (h : heap) (s : Store) : DocStore.Store :=
  {| DocStore.path := path s;
     DocStore.data :=
       (fun records : list loc => view_record depth h <$> records) <$> data s;
     DocStore.nextID := nextID s |}.

(** The object a value refers to, and the values an object holds. *)
Definition ref_of (v : hvalue) : option loc :=
  match v with
  | HMap l | HSlice l => Some l
  | _ => None
  end.

Definition object_values (o : object) : list hvalue :=
  match o with
  | OMap entries => (map_to_list entries).*2
  | OArray elems => elems
  end.

(** No object refers to an address that is not allocated. *)
Definition closed (h : heap) : Prop :=
  forall l o v l', h !! l = Some o -> v ∈ object_values o -> ref_of v = Some l' ->
                   l' ∈ dom h.

(** The entries [Insert] stores for a record with the entries [E]. *)
Definition with_id (next : Z) (E : gmap string hvalue) : gmap string hvalue :=
  match E !! "id" with
  | Some _ => E
  | None => <["id" := HInt next]> E
  end.

(** The heap grows: what was allocated stays as it was. *)
Definition extends (h h' : heap) : Prop :=
  forall l, l ∈ dom h -> h' !! l = h !! l.

Section Store.

(** [matches(record, criteria)], which reads the heap and writes nothing. *)
Variable matches : heap -> loc -> option loc -> bool.

Definition Insert (io : SaveIO) (collection : string) (record : option loc)
    (h : heap) (s : Store) : (option loc * option error) * heap * Store :=
  if decide (collection = "") then ((None, Some "collection is required"), h, s)
  else
    let '(record, h) :=
      match record with
      | None => let '(l, h) := make h in (Some l, h)
      | Some l => (Some l, h)
      end in
    let '(copy, h) := cloneRecord record h in
    let '(h, next) :=
      match entries_at h (Some copy) !! "id" with
      | Some _ => (h, nextID s)
      | None => (assign copy "id" (HInt (nextID s)) h, GoInt.incr (nextID s))
      end in
    let s' := {| path := path s;
                 data := <[collection := (data s !!! collection) ++ [copy]]> (data s);
                 nextID := next |} in
    match saveLocked io s' with
    | Some err => ((None, Some err), h, s')
    | None => let '(result, h) := cloneRecord (Some copy) h in
              ((Some result, None), h, s')
    end.

Definition Query (collection : string) (criteria : option loc)
    (h : heap) (s : Store) : (list loc * option error) * heap * Store :=
  if decide (collection = "") then (([], Some "collection is required"), h, s)
  else
    let records := data s !!! collection in
    let '(result, h) :=
      foldl (fun '(result, h) record =>
               if matches h record criteria then
                 let '(copy, h) := cloneRecord (Some record) h in
                 (result ++ [copy], h)
               else (result, h)) ([], h) records in
    ((result, None), h, s).

End Store.

(** *** Example data: a record with a nested map *)

(** [matches] on empty criteria: true for every record. *)
Definition matches_all : heap -> loc -> option loc -> bool := fun _ _ _ => true.

(** The caller's record, at address 1, holds the map at address 2. *)
Definition pilot_heap : heap :=
  {[ 1%positive := OMap {[ "name" := HString "Ada"; "tags" := HMap 2 ]};
     2%positive := OMap {[ "rank" := HInt 1 ]} ]}.

Definition empty_store : Store := {| path := ""; data := ∅; nextID := 1 |}.

Definition inserted := Insert io_ok "users" (Some 1%positive) pilot_heap empty_store.


End Aliasing.

(** ** Lua values, as the bridge sees them *)

Module Lua.

(** [lua.LValue]. A table is its entries in the order [ForEach] visits
    them; [LOther repr] is a function, userdata, thread or channel, of which
    the bridge only uses [String()], here [repr]. *)
Inductive LValue :=
| LNil
| LBool (b : bool)
| LNumber (x : Float64.float64)
| LString (s : string)
| LTable (entries : list (LValue * LValue))
| LOther (repr : string).

Definition NewTable : list (LValue * LValue) := [].

(** [table.RawSetString(key, value)] for a non-nil [value]. *)
Fixpoint RawSetString (key : string) (value : LValue)
    (entries : list (LValue * LValue)) : list (LValue * LValue) :=
  match entries with
  | [] => [(LString key, value)]
  | (LString key', value') :: rest =>
      if decide (key = key') then (LString key, value) :: rest
      else (LString key', value') :: RawSetString key value rest
  | entry :: rest => entry :: RawSetString key value rest
  end.

(** [table.RawSetInt(key, value)] for a non-nil [value]. *)
Fixpoint RawSetInt (key : Z) (value : LValue)
    (entries : list (LValue * LValue)) : list (LValue * LValue) :=
  match entries with
  | [] => [(LNumber (Float64.of_int key), value)]
  | (LNumber key', value') :: rest =>
      if Float64.eqb (Float64.of_int key) key'
      then (LNumber (Float64.of_int key), value) :: rest
      else (LNumber key', value') :: RawSetInt key value rest
  | entry :: rest => entry :: RawSetInt key value rest
  end.

(** The table a Go loop [for i, v := range items { t.RawSetInt(i+1, f(v)) }]
    builds on top of [entries]. *)
Fixpoint RawSetInts {A} (f : A -> LValue) (i : Z) (items : list A)
    (entries : list (LValue * LValue)) : list (LValue * LValue) :=
  match items with
  | [] => entries
  | item :: items => RawSetInts f (i + 1) items (RawSetInt (i + 1) (f item) entries)
  end.

(** [table.RawGetInt(key)] *)
Fixpoint RawGetInt (key : Z) (entries : list (LValue * LValue)) : LValue :=
  match entries with
  | [] => LNil
  | (LNumber key', value) :: rest =>
      if Float64.eqb (Float64.of_int key) key' then value else RawGetInt key rest
  | _ :: rest => RawGetInt key rest
  end.

End Lua.

(** ** The key/value store: package [sugardb], and its [keys] binding *)

Module KV.

Import DocStore Lua.

(** Go compares strings byte by byte. *)
Definition string_le (a b : string) : Prop := String.leb a b = true.

#[export] Instance string_le_dec a b : Decision (string_le a b).
Proof. unfold string_le. apply _. Defined.

(** [sort.Strings]: the result is the sorted arrangement of the slice,
    computed here by merging. *)
Definition sort_Strings (keys : list string) : list string :=
  merge_sort string_le keys.

Record Store := { data : gmap string value }.

Definition NewStore : Store := {| data := ∅ |}.

Definition Get (key : string) (s : Store) : value * bool :=
  match data s !! key with
  | Some value => (value, true)
  | None => (VNil, false)
  end.

(** [Set] ([Set] is reserved in Rocq). *)
Definition Set_ (key : string) (value : value) (s : Store) : Store :=
  {| data := <[key := value]> (data s) |}.

Definition Delete (key : string) (s : Store) : bool * Store :=
  match data s !! key with
  | None => (false, s)
  | Some _ => (true, {| data := delete key (data s) |})
  end.

(** The loop of [Keys] over the entries in the order [visited]. *)
Definition Keys_loop (visited : list (string * value)) : list string :=
  foldl (fun keys kv => keys ++ [kv.1]) [] visited.

(** [Keys]: [range] visits the entries of the map once each, in an order
    the runtime picks. *)
Definition Keys (s : Store) (keys : list string) : Prop :=
  exists visited, visited ≡ₚ map_to_list (data s) /\ keys = Keys_loop visited.

(** The table [sugarKeys] pushes, given what [store.Keys()] returned. *)
Definition sugarKeys (keys : list string) : list (LValue * LValue) :=
  let keys := sort_Strings keys in
  RawSetInts LString 0 keys NewTable.

(** Every key of the table is a small integer. *)
Definition int_keyed (entries : list (LValue * LValue)) : Prop :=
  Forall (fun entry => exists j, 0 <= j <= 2 ^ 53
                                 /\ entry.1 = LNumber (Float64.of_int j)) entries.

(** *** Example data *)

Definition crew : Store :=
  Set_ "ada" (VString "pilot") (Set_ "grace" (VBool true) (Set_ "bob" VNil NewStore)).

End KV.

(** ** The scripting bridge: [internal/server/lua_engine.go] *)

Module Bridge.

Import DocStore Lua.

(** A request as the handler closure reads it off the [gin.Context]. *)
Record Request := {
  Method : string;
  Path : string;
  RawQuery : string;
  Body : string + error;
  ClientIP : string;
  Header : gmap string (list string);
  Query : gmap string (list string);
  Params : list (string * string);
}.

(** The calls the closure makes on the [gin.Context]. *)
Inductive GinCall :=
| Header_ (key value : string)
| Status (code : Z)
| String_ (code : Z) (text : string)
| Data (code : Z) (contentType : string) (bytes : string)
| JSON (code : Z) (obj : value).

Definition StatusOK : Z := 200.

Definition StatusBadRequest : Z := 400.

Definition StatusInternalServerError : Z := 500.

(** [gin.H{"error": err.Error()}] *)
Definition error_body (err : error) : value := VMap {[ "error" := VString err ]}.

(** What one run of the closure does, in order. *)
Inductive Event :=
| Lock
| Unlock
| Call (reqTable : list (LValue * LValue))
| Parse
| Gin (call : GinCall).

(** What [CallByParam] with [Protect: true] and [NRet: 3] ends in: an error,
    or three values on the stack. *)
Inductive PCall :=
| Raised (err : error)
| Returned (statusValue bodyValue headersValue : LValue).

Section Engine.

(** [String()] of a Lua value other than a string. *)
Variable String_of : LValue -> string.

(** The interpreter state [e.L]. *)
Variable LState : Type.

(** A script function, by what a protected call of it with one argument
    does. *)
Definition LFunction : Type := list (LValue * LValue) -> LState -> PCall * LState.

Definition key_String (key : LValue) : string :=
  match key with
  | LString s => s
  | _ => String_of key
  end.

Fixpoint luaValueToGo (v : LValue) : value :=
  match v with
  | LString s => VString s
  | LNumber x => VFloat64 x
  | LBool b => VBool b
  | LTable entries =>
      VMap ((fix luaTableToMap (entries : list (LValue * LValue))
               (result : gmap string value) : gmap string value :=
               match entries with
               | [] => result
               | (key, value) :: rest =>
                   luaTableToMap rest (<[key_String key := luaValueToGo value]> result)
               end) entries ∅)
  | _ => VString (String_of v)
  end.

Definition luaTableToMap (entries : list (LValue * LValue)) : gmap string value :=
  match luaValueToGo (LTable entries) with
  | VMap result => result
  | _ => ∅
  end.

(** One header or query parameter: a scalar for one value, a list else. *)
Definition values_to_lua (values : list string) : LValue :=
  match values with
  | [v] => LString v
  | _ => LTable (RawSetInts LString 0 values NewTable)
  end.

Definition requestToLuaTable (c : Request) : list (LValue * LValue) + error :=
  match Body c with
  | inr err => inr err
  | inl body =>
      let req := NewTable in
      let req := RawSetString "method" (LString (Method c)) req in
      let req := RawSetString "path" (LString (Path c)) req in
      let req := RawSetString "raw_query" (LString (RawQuery c)) req in
      let req := RawSetString "body" (LString body) req in
      let req := RawSetString "client_ip" (LString (ClientIP c)) req in
      let headerKeys := KV.sort_Strings (map_to_list (Header c)).*1 in
      let headers :=
        foldl (fun headers k =>
                 RawSetString k (values_to_lua (Header c !!! k)) headers)
              NewTable headerKeys in
      let req := RawSetString "headers" (LTable headers) req in
      let query :=
        foldl (fun query kv => RawSetString kv.1 (values_to_lua kv.2) query)
              NewTable (map_to_list (Query c)) in
      let req := RawSetString "query" (LTable query) req in
      let params :=
        foldl (fun params p => RawSetString p.1 (LString p.2) params)
              NewTable (Params c) in
      let req := RawSetString "params" (LTable params) req in
      inl req
  end.

(** [parseLuaResponse]; the body is [None] for Go's nil. *)
Definition parseLuaResponse (statusValue bodyValue headersValue : LValue)
  : Z * option value * gmap string string :=
  let status :=
    match statusValue with
    | LNumber x => GoInt.of_float64 x
    | _ => StatusOK
    end in
  let body :=
    match bodyValue with
    | LString v => Some (VString v)
    | LTable v => Some (VMap (luaTableToMap v))
    | LBool v => Some (VBool v)
    | LNumber v => Some (VFloat64 v)
    | LNil => None
    | v => Some (VString (String_of v))
    end in
  let headers :=
    match headersValue with
    | LTable table =>
        foldl (fun headers kv =>
                 match kv with
                 | (LString key, LString value) => <[key := value]> headers
                 | _ => headers
                 end) ∅ table
    | _ => ∅
    end in
  (status, body, headers).

(** The closure [attachRoute] registers for [handler], run on the request
    [c] in the interpreter state [st]. *)
Definition serve (handler : LFunction) (c : Request) (st : LState)
  : list Event * LState :=
  match requestToLuaTable c with
  | inr err =>
      ([Lock; Gin (JSON StatusBadRequest (error_body err)); Unlock], st)
  | inl reqTable =>
      match handler reqTable st with
      | (Raised err, st') =>
          ([Lock; Call reqTable;
            Gin (JSON StatusInternalServerError (error_body err)); Unlock], st')
      | (Returned statusValue bodyValue headersValue, st') =>
          let '(status, body, headers) :=
            parseLuaResponse statusValue bodyValue headersValue in
          let header_calls :=
            (fun kv => Gin (Header_ kv.1 kv.2)) <$> map_to_list headers in
          let body_calls :=
            match body with
            | None => [Gin (Status status)]
            | Some (VString typed) => [Gin (String_ status typed)]
            | Some typed => [Gin (JSON status typed)]
            end in
          ([Lock; Call reqTable; Parse] ++ header_calls ++ body_calls ++ [Unlock], st')
      end
  end.

Definition is_call (ev : Event) : bool :=
  match ev with Call _ => true | _ => false end.

Definition is_parse (ev : Event) : bool :=
  match ev with Parse => true | _ => false end.

(** The calls made on the [gin.Context], in order. *)
Definition gin_calls (events : list Event) : list GinCall :=
  omap (fun ev => match ev with Gin call => Some call | _ => None end) events.

End Engine.

(** *** Example data: a handler that raises *)

(** [String()] on the values the examples meet: nil, booleans, and what
    stands for itself. *)
Definition String_of_plain (v : LValue) : string :=
  match v with
  | LNil => "nil"
  | LBool true => "true"
  | LBool false => "false"
  | LOther repr => repr
  | _ => ""
  end.

Definition hello_request : Request :=
  {| Method := "GET"; Path := "/hello/Ada"; RawQuery := "lang=en";
     Body := inl ""; ClientIP := "127.0.0.1";
     Header := {[ "Accept" := ["text/html"; "*/*"]; "Host" := ["localhost"] ]};
     Query := {[ "lang" := ["en"] ]};
     Params := [("name", "Ada")] |}.

Definition hello_table : list (LValue * LValue) :=
  match requestToLuaTable hello_request with
  | inl reqTable => reqTable
  | inr _ => []
  end.

(** [function(req) error("boom") end], in an interpreter whose state counts
    the calls made. *)
Definition raises : LFunction nat :=
  fun _ calls => (Raised "app.lua:2: boom", S calls).

End Bridge.

(** ** The runtime manager: [cmd/lunar/main.go] and [BuildRuntime] *)

Module Lifecycle.

(** A [*server.Runtime], by the order in which [BuildRuntime] allocated it
    (with its router and its engine). *)
Definition gen := nat.

(** Where a request goroutine stands inside [runtimeState.ServeHTTP]. *)
Inductive ReqPC :=
| ReqLocked                          (* s.mu.RLock() has returned *)
| ReqServing (current : option gen).

 (* current := s.runtime; serving on it *)

(** Where a reload stands after [BuildRuntime] returned [next], inside
    [runtimeState.Swap]. *)
Inductive ReloadPC :=
| Built (next : gen)            (* about to call state.Swap(next) *)
| Locked (next : gen)           (* s.mu.Lock() has returned *)
| Swapped (old : option gen)    (* old := s.runtime; s.runtime = next *)
| Unlocked (old : option gen).

  (* s.mu.Unlock() has returned *)

Record State := {
  scriptPath : string;
  runtime : option gen;          (* state.runtime *)
  readers : nat;                 (* holders of the read side of state.mu *)
  writer : bool;                 (* the write side of state.mu is held *)
  closed : gset gen;             (* engines on which Close() was called *)
  allocated : nat;               (* runtimes built so far *)
  requests : gmap nat ReqPC;     (* requests in flight *)
  reloads : gmap nat ReloadPC;   (* reloads in flight *)
  log : list string;
  exited : bool;                 (* os.Exit was called *)
}.

(** The steps goroutines take; [r] names a request, [w] a reload. *)
Inductive Label :=
| RLock (r : nat)
| ReadRuntime (r : nat)
| Serve (r : nat)
| RUnlock (r : nat)
| BuildOk (w : nat)
| BuildFail (w : nat) (err : string)
| WLock (w : nat)
| SwapPtr (w : nat)
| WUnlock (w : nat)
| Close (w : nat).

(** [main] up to the start of the server: the first [BuildRuntime], whose
    failure ends the process. *)
Definition start (path : string) (build : option string) : State :=
  match build with
  | None =>
      {| scriptPath := path; runtime := Some 0%nat; readers := 0; writer := false;
         closed := ∅; allocated := 1; requests := ∅; reloads := ∅; log := [];
         exited := false |}
  | Some err =>
      {| scriptPath := path; runtime := None; readers := 0; writer := false;
         closed := {[ 0%nat ]}; allocated := 1; requests := ∅; reloads := ∅; log := [];
         exited := true |}
  end.

Definition set_lock (readers : nat) (writer : bool) (s : State) : State :=
  {| scriptPath := scriptPath s; runtime := runtime s; readers := readers;
     writer := writer; closed := closed s; allocated := allocated s;
     requests := requests s; reloads := reloads s; log := log s;
     exited := exited s |}.

Definition set_requests (requests : gmap nat ReqPC) (s : State) : State :=
  {| scriptPath := scriptPath s; runtime := runtime s; readers := readers s;
     writer := writer s; closed := closed s; allocated := allocated s;
     requests := requests; reloads := reloads s; log := log s;
     exited := exited s |}.

Definition set_reloads (reloads : gmap nat ReloadPC) (s : State) : State :=
  {| scriptPath := scriptPath s; runtime := runtime s; readers := readers s;
     writer := writer s; closed := closed s; allocated := allocated s;
     requests := requests s; reloads := reloads; log := log s;
     exited := exited s |}.

Definition set_runtime (runtime : option gen) (s : State) : State :=
  {| scriptPath := scriptPath s; runtime := runtime; readers := readers s;
     writer := writer s; closed := closed s; allocated := allocated s;
     requests := requests s; reloads := reloads s; log := log s;
     exited := exited s |}.

(** One [BuildRuntime] call: a runtime is allocated; when the script fails
    to load its engine is closed at once. *)
Definition build (failed : bool) (lines : list string) (s : State) : State :=
  {| scriptPath := scriptPath s; runtime := runtime s; readers := readers s;
     writer := writer s;
     closed := if failed then {[ allocated s ]} ∪ closed s else closed s;
     allocated := S (allocated s);
     requests := requests s; reloads := reloads s; log := log s ++ lines;
     exited := exited s |}.

Definition close (old : option gen) (s : State) : State :=
  {| scriptPath := scriptPath s; runtime := runtime s; readers := readers s;
     writer := writer s;
     closed := match old with Some g => {[ g ]} ∪ closed s | None => closed s end;
     allocated := allocated s;
     requests := requests s; reloads := reloads s; log := log s;
     exited := exited s |}.

Definition reloading (s : State) : string :=
  "script change detected: reloading " +:+ scriptPath s.

(** The step [l], when the goroutine is at that point and not blocked. *)
Definition step (l : Label) (s : State) : option State :=
  if exited s then None else
  match l with
  | RLock r =>
      match requests s !! r with
      | None =>
          if writer s then None
          else Some (set_requests (<[r := ReqLocked]> (requests s))
                       (set_lock (S (readers s)) false s))
      | Some _ => None
      end
  | ReadRuntime r =>
      match requests s !! r with
      | Some ReqLocked =>
          Some (set_requests (<[r := ReqServing (runtime s)]> (requests s)) s)
      | _ => None
      end
  | Serve r =>
      match requests s !! r with
      | Some (ReqServing (Some current)) => Some s
      | _ => None
      end
  | RUnlock r =>
      match requests s !! r with
      | Some (ReqServing _) =>
          Some (set_requests (delete r (requests s))
                  (set_lock (pred (readers s)) (writer s) s))
      | _ => None
      end
  | BuildOk w =>
      match reloads s !! w with
      | None =>
          Some (set_reloads (<[w := Built (allocated s)]> (reloads s))
                  (build false [reloading s] s))
      | Some _ => None
      end
  | BuildFail w err =>
      match reloads s !! w with
      | None => Some (build true [reloading s; "reload failed: " +:+ err] s)
      | Some _ => None
      end
  | WLock w =>
      match reloads s !! w with
      | Some (Built next) =>
          if writer s then None
          else match readers s with
               | O => Some (set_reloads (<[w := Locked next]> (reloads s))
                              (set_lock 0 true s))
               | S _ => None
               end
      | _ => None
      end
  | SwapPtr w =>
      match reloads s !! w with
      | Some (Locked next) =>
          Some (set_reloads (<[w := Swapped (runtime s)]> (reloads s))
                  (set_runtime (Some next) s))
      | _ => None
      end
  | WUnlock w =>
      match reloads s !! w with
      | Some (Swapped old) =>
          Some (set_reloads (<[w := Unlocked old]> (reloads s))
                  (set_lock (readers s) false s))
      | _ => None
      end
  | Close w =>
      match reloads s !! w with
      | Some (Unlocked old) =>
          Some (set_reloads (delete w (reloads s)) (close old s))
      | _ => None
      end
  end.

(** An interleaving of steps. *)
Fixpoint run (labels : list Label) (s : State) : option State :=
  match labels with
  | [] => Some s
  | l :: labels =>
      match step l s with
      | Some s' => run labels s'
      | None => None
      end
  end.

(** The request a label belongs to. *)
Definition label_request (l : Label) : option nat :=
  match l with
  | RLock r | ReadRuntime r | Serve r | RUnlock r => Some r
  | _ => None
  end.

(** The runtime a reload holds and no one else can reach: the one it built
    and has not installed, or the one it replaced and has not closed. *)
Definition custody (pc : ReloadPC) : option gen :=
  match pc with
  | Built next | Locked next => Some next
  | Swapped old | Unlocked old => old
  end.

Definition holds_lock (pc : ReloadPC) : bool :=
  match pc with
  | Locked _ | Swapped _ => true
  | _ => false
  end.

Record Inv (s : State) : Prop := {
  inv_running : exited s = false;
  inv_readers : readers s = size (requests s);
  inv_exclusive : writer s = true -> readers s = 0%nat;
  inv_writer : forall w pc, reloads s !! w = Some pc -> holds_lock pc = true ->
                            writer s = true;
  inv_current : forall r current, requests s !! r = Some (ReqServing current) ->
                                  current = runtime s;
  inv_single : forall w w' pc pc', reloads s !! w = Some pc ->
                                  reloads s !! w' = Some pc' ->
                                  holds_lock pc = true -> holds_lock pc' = true ->
                                  w = w';
  inv_closed : forall g, g ∈ closed s -> (g < allocated s)%nat;
  inv_live : exists g, runtime s = Some g /\ (g ∉ closed s) /\ (g < allocated s)%nat;
  inv_custody : forall w pc g, reloads s !! w = Some pc -> custody pc = Some g ->
                               (g ∉ closed s) /\ (g < allocated s)%nat
                               /\ (runtime s <> Some g);
  inv_distinct : forall w w' pc pc' g,
      reloads s !! w = Some pc -> reloads s !! w' = Some pc' ->
      custody pc = Some g -> custody pc' = Some g -> w = w';
}.

(** *** Example data: a reload under load *)

(** Two requests in flight when a reload is built; the reload waits for
    both, swaps, and closes the old engine while a third request is served
    by the new runtime. *)
Definition reload_under_load : list Label :=
  [RLock 1; ReadRuntime 1; RLock 2; BuildOk 7; ReadRuntime 2; Serve 1;
   RUnlock 1; Serve 2; RUnlock 2; WLock 7; SwapPtr 7; WUnlock 7;
   RLock 3; ReadRuntime 3; Close 7; Serve 3]%nat.

Definition after_reload : State :=
  {| scriptPath := "app.lua"; runtime := Some 1%nat; readers := 1; writer := false;
     closed := {[ 0%nat ]}; allocated := 2;
     requests := {[ 3%nat := ReqServing (Some 1%nat) ]}; reloads := ∅;
     log := ["script change detected: reloading app.lua"]; exited := false |}.

End Lifecycle.

(** * Part II: the proofs *)

(** ** Facts on valid floats *)

Module Float64Facts.

Import Float64.

Lemma digits2_pos_bounds (m : positive) :
  2 ^ (Zpos (digits2_pos m) - 1) <= Zpos m < 2 ^ Zpos (digits2_pos m).
Proof.
  induction m as [m IH|m IH|]; simpl digits2_pos.
  - rewrite Pos2Z.inj_succ.
    replace (Z.succ (Zpos (digits2_pos m)) - 1) with (Z.succ (Zpos (digits2_pos m) - 1)) by lia.
    rewrite !Z.pow_succ_r by lia. lia.
  - rewrite Pos2Z.inj_succ.
    replace (Z.succ (Zpos (digits2_pos m)) - 1) with (Z.succ (Zpos (digits2_pos m) - 1)) by lia.
    rewrite !Z.pow_succ_r by lia. lia.
  - simpl. lia.
Qed.

(** A valid finite float has at most 53 mantissa bits and an exponent
    between -1074 and 971. *)
Lemma valid_finite_bounds s m e :
  valid (S754_finite s m e) = true ->
  Zpos m < 2 ^ 53 /\ -1074 <= e <= 971.
Proof.
  unfold valid, valid_binary, bounded, canonical_mantissa, fexp, SpecFloat.emin, prec, emax.
  intros H. apply andb_prop in H as [Hc He].
  apply Z.eqb_eq in Hc. apply Z.leb_le in He.
  pose proof (digits2_pos_bounds m) as [_ Hd].
  split; [|lia].
  assert (Zpos (digits2_pos m) <= 53) by lia.
  eapply Z.lt_le_trans; [exact Hd|].
  apply Z.pow_le_mono_r; lia.
Qed.



(** A valid float with an exponent above the smallest one is normal: its
    mantissa has all 53 bits. *)
Lemma valid_finite_normal s m e :
  valid (S754_finite s m e) = true -> -1074 < e -> 2 ^ 52 <= Zpos m.
Proof.
  unfold valid, valid_binary, bounded, canonical_mantissa, fexp, SpecFloat.emin, prec, emax.
  intros H He. apply andb_prop in H as [Hc _].
  apply Z.eqb_eq in Hc.
  pose proof (digits2_pos_bounds m) as [Hd _].
  assert (Zpos (digits2_pos m) = 53) as Heq by lia.
  by rewrite Heq in Hd.
Qed.

Lemma digits2_pos_53 (m : positive) :
  2 ^ 52 <= Zpos m < 2 ^ 53 -> Zpos (digits2_pos m) = 53.
Proof.
  intros [Hlo Hhi].
  pose proof (digits2_pos_bounds m) as [Hd1 Hd2].
  assert (Zpos (digits2_pos m) - 1 < 53).
  { apply (Z.pow_lt_mono_r_iff 2); lia. }
  assert (52 < Zpos (digits2_pos m)).
  { apply (Z.pow_lt_mono_r_iff 2); lia. }
  lia.
Qed.

(** The same number, whichever the signs of zero. *)
Lemma eqb_units x y :
  valid x = true -> valid y = true ->
  is_finite x = true -> is_finite y = true ->
  eqb x y = true <-> units x = units y.
Proof.
  intros Hx Hy Hfx Hfy.
  destruct x as [sx|sx| |sx mx ex]; try done;
    destruct y as [sy|sy| |sy my ey]; try done.
  - (* zero, finite *)
    unfold eqb, SFeqb. simpl SFcompare.
    apply valid_finite_bounds in Hy as [_ Hy].
    assert (0 < Zpos my * 2 ^ (ey + 1074)).
    { apply Z.mul_pos_pos; [lia|]. apply Z.pow_pos_nonneg; lia. }
    unfold units. destruct sy; simpl cond_Zopp; split; (done || lia).
  - unfold eqb, SFeqb. simpl SFcompare.
    apply valid_finite_bounds in Hx as [_ Hx].
    assert (0 < Zpos mx * 2 ^ (ex + 1074)).
    { apply Z.mul_pos_pos; [lia|]. apply Z.pow_pos_nonneg; lia. }
    unfold units. destruct sx; simpl cond_Zopp; split; (done || lia).
  - pose proof (valid_finite_bounds _ _ _ Hx) as [Hmx Hex].
    pose proof (valid_finite_bounds _ _ _ Hy) as [Hmy Hey].
    pose proof (valid_finite_normal _ _ _ Hx) as Hnx.
    pose proof (valid_finite_normal _ _ _ Hy) as Hny.
    assert (0 < 2 ^ (ex + 1074)) by (apply Z.pow_pos_nonneg; lia).
    assert (0 < 2 ^ (ey + 1074)) by (apply Z.pow_pos_nonneg; lia).
    assert (Hcanon : Zpos mx * 2 ^ (ex + 1074) = Zpos my * 2 ^ (ey + 1074) ->
                     ex = ey /\ mx = my).
    { intros Heq.
      assert (ex = ey) as ->.
      { destruct (Z.lt_trichotomy ex ey) as [Hlt|[?|Hlt]]; [|done|]; exfalso.
        - replace (ey + 1074) with ((ex + 1074) + (ey - ex)) in Heq by lia.
          rewrite (Z.pow_add_r 2 (ex + 1074) (ey - ex)) in Heq by lia.
          assert (2 <= 2 ^ (ey - ex)).
          { change 2 with (2 ^ 1) at 1. apply Z.pow_le_mono_r; lia. }
          specialize (Hny ltac:(lia)).
          assert (Zpos mx = Zpos my * 2 ^ (ey - ex)) as Hm.
          { apply (Z.mul_cancel_r _ _ (2 ^ (ex + 1074))); lia. }
          assert (2 ^ 52 * 2 <= Zpos my * 2 ^ (ey - ex))
            by (apply Z.mul_le_mono_nonneg; lia).
          change (2 ^ 52 * 2) with (2 ^ 53) in *. lia.
        - replace (ex + 1074) with ((ey + 1074) + (ex - ey)) in Heq by lia.
          rewrite (Z.pow_add_r 2 (ey + 1074) (ex - ey)) in Heq by lia.
          assert (2 <= 2 ^ (ex - ey)).
          { change 2 with (2 ^ 1) at 1. apply Z.pow_le_mono_r; lia. }
          specialize (Hnx ltac:(lia)).
          assert (Zpos my = Zpos mx * 2 ^ (ex - ey)) as Hm.
          { apply (Z.mul_cancel_r _ _ (2 ^ (ey + 1074))); lia. }
          assert (2 ^ 52 * 2 <= Zpos mx * 2 ^ (ex - ey))
            by (apply Z.mul_le_mono_nonneg; lia).
          change (2 ^ 52 * 2) with (2 ^ 53) in *. lia. }
      split; [done|]. apply Z.mul_cancel_r in Heq; [congruence|lia]. }
    assert (0 < Zpos mx * 2 ^ (ex + 1074)) by (apply Z.mul_pos_pos; lia).
    assert (0 < Zpos my * 2 ^ (ey + 1074)) by (apply Z.mul_pos_pos; lia).
    unfold eqb, SFeqb, units. simpl SFcompare.
    destruct sx, sy; simpl cond_Zopp.
    + split.
      * destruct (ex ?= ey) eqn:He; try done.
        apply Z.compare_eq in He as ->.
        change (Pos.compare_cont Eq mx my) with (mx ?= my)%positive.
        destruct (mx ?= my)%positive eqn:Hm; try done.
        by apply Pos.compare_eq in Hm as ->.
      * intros Heq. destruct Hcanon as [-> ->]; [lia|].
        rewrite Z.compare_refl.
        change (Pos.compare_cont Eq my my) with (my ?= my)%positive.
        by rewrite Pos.compare_refl.
    + split; [done|lia].
    + split; [done|lia].
    + split.
      * destruct (ex ?= ey) eqn:He; try done.
        apply Z.compare_eq in He as ->.
        change (Pos.compare_cont Eq mx my) with (mx ?= my)%positive.
        destruct (mx ?= my)%positive eqn:Hm; try done.
        by apply Pos.compare_eq in Hm as ->.
      * intros Heq. destruct Hcanon as [-> ->]; [lia|].
        rewrite Z.compare_refl.
        change (Pos.compare_cont Eq my my) with (my ?= my)%positive.
        by rewrite Pos.compare_refl.
Qed.

Lemma iter_xO_pow2 (m k : positive) :
  Zpos (Pos.iter xO m k) = Zpos m * 2 ^ Zpos k.
Proof.
  induction k as [|k IH] using Pos.peano_ind.
  - simpl. lia.
  - rewrite Pos.iter_succ, Pos2Z.inj_xO, IH, Pos2Z.inj_succ.
    rewrite Z.pow_succ_r by lia. lia.
Qed.

(** A number with at most 53 mantissa bits and an exponent in the normal
    range converts without rounding: [binary_round] only shifts the mantissa
    up to 53 bits. *)
Lemma binary_round_exact s (m : positive) (e : Z) :
  Zpos m < 2 ^ 53 -> -1021 <= e <= 971 ->
  exists m' e',
    binary_round prec emax s m e = S754_finite s m' e'
    /\ valid (S754_finite s m' e') = true
    /\ Zpos m' * 2 ^ (e' + 1074) = Zpos m * 2 ^ (e + 1074).
Proof.
  intros Hm He.
  pose proof (digits2_pos_bounds m) as [Hd1 Hd2].
  assert (Hd : 1 <= Zpos (digits2_pos m) <= 53).
  { split; [lia|].
    assert (Zpos (digits2_pos m) - 1 < 53); [|lia].
    apply (Z.pow_lt_mono_r_iff 2); lia. }
  set (d := Zpos (digits2_pos m)) in *.
  assert (Hfexp : fexp prec emax (d + e) = d + e - 53).
  { unfold fexp, SpecFloat.emin, prec, emax. lia. }
  (* the aligned mantissa and exponent *)
  assert (Halign : exists mz, shl_align m e (d + e - 53) = (mz, d + e - 53)
                              /\ Zpos mz = Zpos m * 2 ^ (53 - d)).
  { unfold shl_align. replace (d + e - 53 - e) with (d - 53) by lia.
    destruct (d - 53) as [|k|k] eqn:Hk; [|lia|].
    - exists m. replace (d + e - 53) with e by lia. split; [done|].
      replace (53 - d) with 0 by lia. lia.
    - exists (Pos.iter xO m k). split; [done|].
      rewrite iter_xO_pow2. f_equal. f_equal. lia. }
  destruct Halign as (mz & Halign & Hmz).
  assert (Hmz_range : 2 ^ 52 <= Zpos mz < 2 ^ 53).
  { rewrite Hmz. split.
    - replace 52 with ((d - 1) + (53 - d)) by lia.
      rewrite Z.pow_add_r by lia.
      apply Z.mul_le_mono_nonneg_r; [apply Z.pow_nonneg|]; lia.
    - replace 53 with (d + (53 - d)) at 2 by lia.
      rewrite Z.pow_add_r by lia.
      apply Z.mul_lt_mono_pos_r; [apply Z.pow_pos_nonneg|]; lia. }
  pose proof (digits2_pos_53 mz Hmz_range) as Hdz.
  assert (Hshift : fexp prec emax (Zpos (digits2_pos mz) + (d + e - 53)) - (d + e - 53) = 0).
  { rewrite Hdz. unfold fexp, SpecFloat.emin, prec, emax. lia. }
  exists mz, (d + e - 53).
  split; [|split].
  - unfold binary_round. fold d. rewrite Hfexp, Halign.
    unfold binary_round_aux, shr_fexp. simpl Zdigits2.
    rewrite Hshift. simpl. rewrite Hshift. simpl.
    replace (d + e - 53 <=? emax - prec) with true; [done|].
    symmetry. apply Z.leb_le. unfold emax, prec. lia.
  - unfold valid, valid_binary, bounded, canonical_mantissa.
    apply andb_true_intro. split.
    + apply Z.eqb_eq. lia.
    + apply Z.leb_le. unfold emax, prec. lia.
  - rewrite Hmz. rewrite <- Z.mul_assoc, <- Z.pow_add_r by lia.
    f_equal. f_equal. lia.
Qed.

(** [float64(n)] is exact for [|n| <= 2^53]. *)
Lemma of_int_exact (n : Z) :
  - 2 ^ 53 <= n <= 2 ^ 53 ->
  valid (of_int n) = true /\ is_finite (of_int n) = true
  /\ units (of_int n) = int_units n.
Proof.
  intros Hn. unfold of_int, int_units.
  destruct (decide (n = 2 ^ 53)) as [->|Hhi]; [by vm_compute|].
  destruct (decide (n = - 2 ^ 53)) as [->|Hlo]; [by vm_compute|].
  destruct n as [|m|m]; [done| |].
  - assert (Zpos m < 2 ^ 53) as Hm by lia.
    destruct (binary_round_exact false m 0 Hm ltac:(lia)) as (m' & e' & Hr & Hv & Hu).
    unfold binary_normalize. rewrite Hr. by repeat split.
  - assert (Zpos m < 2 ^ 53) as Hm by lia.
    destruct (binary_round_exact true m 0 Hm ltac:(lia)) as (m' & e' & Hr & Hv & Hu).
    unfold binary_normalize. rewrite Hr.
    repeat split; [done|]. simpl. lia.
Qed.

(** [float64(x)] is exact for every valid [float32] [x] (24 bits of
    precision, infinities at exponent 128). *)
Lemma of_float32_exact (x : spec_float) :
  valid_binary 24 128 x = true -> is_finite x = true ->
  valid (of_float32 x) = true /\ is_finite (of_float32 x) = true
  /\ units (of_float32 x) = units x.
Proof.
  destruct x as [sx|sx| |sx m e]; try done.
  unfold valid_binary, bounded, canonical_mantissa, fexp, SpecFloat.emin.
  intros H _. apply andb_prop in H as [Hc He].
  apply Z.eqb_eq in Hc. apply Z.leb_le in He.
  pose proof (digits2_pos_bounds m) as [_ Hd].
  assert (Zpos m < 2 ^ 53) as Hm.
  { eapply Z.lt_le_trans; [exact Hd|]. apply Z.pow_le_mono_r; lia. }
  destruct (binary_round_exact sx m e Hm ltac:(lia)) as (m' & e' & Hr & Hv & Hu).
  unfold of_float32.
  destruct sx; simpl (cond_Zopp _ (Zpos m)); unfold binary_normalize;
    change (- Zpos m) with (Zneg m); cbv iota;
    rewrite Hr; (repeat split; [done|]); unfold units, cond_Zopp; lia.
Qed.

(** On integers up to [2^53] in magnitude, [==] after conversion is
    equality. *)
Lemma of_int_eqb (a b : Z) :
  - 2 ^ 53 <= a <= 2 ^ 53 -> - 2 ^ 53 <= b <= 2 ^ 53 ->
  eqb (of_int a) (of_int b) = true <-> a = b.
Proof.
  intros Ha Hb.
  destruct (of_int_exact a Ha) as (Hva & Hfa & Hua).
  destruct (of_int_exact b Hb) as (Hvb & Hfb & Hub).
  rewrite (eqb_units _ _ Hva Hvb Hfa Hfb), Hua, Hub.
  unfold int_units.
  assert (0 < 2 ^ 1074) by (apply Z.pow_pos_nonneg; lia).
  split; [|by intros ->].
  intros Heq. apply Z.mul_cancel_r in Heq; lia.
Qed.

Example of_int_rounds :
  Float64.of_int 9007199254740993 = Float64.of_int 9007199254740992.
Proof. reflexivity. Qed.

End Float64Facts.

(** ** The document store *)

Module DocStoreFacts.

Import DocStore.

Section Store.

Context {strconv : Strconv}.

(** *** The loops, in closed form *)

Lemma cloneRecord_eq (record : Record) : cloneRecord record = record.
Proof.
  unfold cloneRecord.
  apply (map_fold_weak_ind (fun copy m => copy = m)); [done|].
  intros key value m copy _ ->. done.
Qed.

Lemma apply_updates_union (updates record : Record) :
  apply_updates updates record = updates ∪ record.
Proof.
  unfold apply_updates.
  apply (map_fold_weak_ind (fun r m => r = m ∪ record)).
  - by rewrite (left_id_L ∅ (∪)).
  - intros key value m r Hfresh ->. by rewrite insert_union_l.
Qed.

Lemma matches_loop_forallb record order :
  matches_loop record order = forallb (criterion_holds record) order.
Proof.
  induction order as [|kv rest IH]; simpl; [done|].
  rewrite IH. by destruct (criterion_holds record kv).
Qed.

(** [range] visits a map in no fixed order: whatever the order, the loop of
    [matches] returns the same answer. *)
Lemma matches_loop_order record order order' :
  order ≡ₚ order' -> matches_loop record order = matches_loop record order'.
Proof.
  intros Hp. rewrite !matches_loop_forallb.
  apply eq_true_iff_eq. rewrite !forallb_forall.
  split; intros H x Hx; apply H; apply list_elem_of_In;
    apply list_elem_of_In in Hx; [by rewrite Hp | by rewrite <- Hp].
Qed.

Lemma matches_spec record criteria :
  matches record criteria = true <->
  forall key expected, criteria !! key = Some expected ->
    exists actual, record !! key = Some actual /\ valuesEqual actual expected = true.
Proof.
  unfold matches. case_bool_decide as Hsize.
  - apply map_size_empty_inv in Hsize as ->.
    split; [intros _ key expected Hk; by rewrite lookup_empty in Hk | done].
  - rewrite matches_loop_forallb, forallb_forall. split.
    + intros H key expected Hk.
      specialize (H (key, expected)).
      rewrite <- list_elem_of_In, elem_of_map_to_list in H.
      specialize (H Hk). unfold criterion_holds in H. simpl in H.
      destruct (record !! key) as [actual|]; [eauto | done].
    + intros H [key expected] Hin.
      apply list_elem_of_In, elem_of_map_to_list in Hin.
      destruct (H key expected Hin) as (actual & Hr & Heq).
      unfold criterion_holds. simpl. by rewrite Hr.
Qed.

Lemma query_loop criteria (records : list Record) (acc : list Record) :
  foldl (fun result record =>
           if matches record criteria then result ++ [cloneRecord record]
           else result) acc records
  = acc ++ filter (fun record => matches record criteria = true) records.
Proof.
  revert acc. induction records as [|record records IH]; intros acc; simpl.
  - by rewrite app_nil_r.
  - rewrite IH, cloneRecord_eq. rewrite filter_cons.
    destruct (matches record criteria); simpl.
    + by rewrite <- app_assoc.
    + done.
Qed.

Lemma update_loop criteria updates (records : list Record) done updated :
  foldl (fun '(done, updated) record =>
           if negb (matches record criteria) then (done ++ [record], updated)
           else (done ++ [apply_updates updates record], updated + 1))
        (done, updated) records
  = (done ++ ((fun record => if matches record criteria
                             then updates ∪ record else record) <$> records),
     updated + Z.of_nat (length (filter (fun record => matches record criteria = true) records))).
Proof.
  revert done updated.
  induction records as [|record records IH]; intros done updated; simpl.
  - by rewrite app_nil_r, Z.add_0_r.
  - rewrite filter_cons.
    destruct (matches record criteria) eqn:Hm; simpl; rewrite IH.
    + rewrite apply_updates_union.
      rewrite <- app_assoc. simpl. f_equal. lia.
    + by rewrite <- app_assoc.
Qed.

Lemma delete_loop criteria (records : list Record) remaining deleted :
  foldl (fun '(remaining, deleted) record =>
           if matches record criteria then (remaining, deleted + 1)
           else (remaining ++ [record], deleted))
        (remaining, deleted) records
  = (remaining ++ filter (fun record => matches record criteria <> true) records,
     deleted + Z.of_nat (length (filter (fun record => matches record criteria = true) records))).
Proof.
  revert remaining deleted.
  induction records as [|record records IH]; intros remaining deleted; simpl.
  - by rewrite app_nil_r, Z.add_0_r.
  - rewrite !filter_cons.
    destruct (matches record criteria) eqn:Hm; simpl; rewrite IH.
    + f_equal. lia.
    + by rewrite <- app_assoc.
Qed.

Lemma saveLocked_path io s s' : path s' = path s -> saveLocked io s' = saveLocked io s.
Proof. unfold saveLocked. by intros ->. Qed.

Lemma Insert_unfold io collection record s :
  collection <> "" ->
  let r := default ∅ record in
  let copy := match r !! "id" with
              | Some _ => r
              | None => <["id" := VInt (nextID s)]> r
              end in
  let s' := {| path := path s;
               data := <[collection := (data s !!! collection) ++ [copy]]> (data s);
               nextID := match r !! "id" with
                         | Some _ => nextID s
                         | None => GoInt.incr (nextID s)
                         end |} in
  Insert io collection record s =
  (match saveLocked io s with
   | Some err => (None, Some err)
   | None => (Some copy, None)
   end, s').
Proof.
  intros Hc. unfold Insert. rewrite decide_False by done.
  rewrite cloneRecord_eq.
  replace (match record with Some r => r | None => ∅ end) with (default ∅ record)
    by by destruct record.
  destruct (default ∅ record !! "id") eqn:Hid; simpl;
    unfold saveLocked; simpl; rewrite ?cloneRecord_eq;
    repeat case_match; by simplify_eq.
Qed.

(** *** Theorems on the operations *)

(** C5. Every operation called with the empty collection name returns the
    error and the store it was given; [Query] on a non-empty name returns,
    with no error and the same store, exactly the records of the collection
    that match, in order, and the empty sequence for an unknown collection. *)
Theorem collection_name_contract io collection criteria updates record s :
  collection <> "" ->
  (Query "" criteria s = (([], Some "collection is required"), s)
   /\ Insert io "" record s = ((None, Some "collection is required"), s)
   /\ Update io "" criteria updates s = ((0, Some "collection is required"), s)
   /\ Delete io "" criteria s = ((0, Some "collection is required"), s))
  /\ Query collection criteria s =
       ((filter (fun r => matches r criteria = true) (data s !!! collection), None), s)
  /\ (data s !! collection = None -> (Query collection criteria s).1.1 = []).
Proof.
  intros Hc. split; [by repeat split|].
  assert (Hq : Query collection criteria s =
       ((filter (fun r => matches r criteria = true) (data s !!! collection), None), s)).
  { unfold Query. rewrite decide_False by done. by rewrite query_loop. }
  split; [done|].
  intros Hnone. rewrite Hq. simpl.
  by rewrite lookup_total_alt, Hnone.
Qed.

(** C10. When persisting fails, [Update] and [Delete] return the count 0 and
    the error, and the store they leave holds the merged records
    (respectively lacks the removed ones): nothing is rolled back. *)
Theorem failed_save_keeps_mutation io collection criteria updates s err :
  collection <> "" ->
  saveLocked io s = Some err ->
  Update io collection criteria updates s =
    ((0, Some err),
     {| path := path s;
        data := <[collection :=
                    (fun r => if matches r criteria then updates ∪ r else r)
                      <$> (data s !!! collection)]> (data s);
        nextID := nextID s |})
  /\ Delete io collection criteria s =
    ((0, Some err),
     {| path := path s;
        data := <[collection :=
                    filter (fun r => matches r criteria <> true)
                      (data s !!! collection)]> (data s);
        nextID := nextID s |}).
Proof.
  intros Hc Hsave. split.
  - unfold Update. rewrite decide_False by done.
    rewrite update_loop. simpl.
    erewrite (saveLocked_path io s) by done. by rewrite Hsave.
  - unfold Delete. rewrite decide_False by done.
    rewrite delete_loop. simpl.
    erewrite (saveLocked_path io s) by done. by rewrite Hsave.
Qed.

(** What [Update] and [Delete] return when persisting succeeds: the number
    of matching records. *)
Lemma saved_counts io collection criteria updates s :
  collection <> "" ->
  saveLocked io s = None ->
  (Update io collection criteria updates s).1 =
    (Z.of_nat (length (filter (fun r => matches r criteria = true)
                         (data s !!! collection))), None)
  /\ (Delete io collection criteria s).1 =
    (Z.of_nat (length (filter (fun r => matches r criteria = true)
                         (data s !!! collection))), None).
Proof.
  intros Hc Hsave. split.
  - unfold Update. rewrite decide_False by done.
    rewrite update_loop. simpl.
    erewrite (saveLocked_path io s) by done. by rewrite Hsave.
  - unfold Delete. rewrite decide_False by done.
    rewrite delete_loop. simpl.
    erewrite (saveLocked_path io s) by done. by rewrite Hsave.
Qed.

(** C3, as amended. [Insert] keeps a supplied ["id"] and leaves the counter
    alone; it gives a record without ["id"] the counter's value; and two
    consecutive inserts of records without ["id"] store ids [n] and [n + 1]
    as long as the counter is below the largest [int]. *)
Theorem insert_ids io1 io2 c1 c2 (r1 r2 : option Record) s :
  c1 <> "" -> c2 <> "" ->
  let s1 := (Insert io1 c1 r1 s).2 in
  let s2 := (Insert io2 c2 r2 s1).2 in
  (forall v, default ∅ r1 !! "id" = Some v ->
     data s1 !!! c1 = (data s !!! c1) ++ [default ∅ r1]
     /\ nextID s1 = nextID s
     /\ (saveLocked io1 s = None ->
         (Insert io1 c1 r1 s).1 = (Some (default ∅ r1), None)))
  /\ (default ∅ r1 !! "id" = None ->
     data s1 !!! c1 = (data s !!! c1) ++ [<["id" := VInt (nextID s)]> (default ∅ r1)]
     /\ (saveLocked io1 s = None ->
         (Insert io1 c1 r1 s).1 =
           (Some (<["id" := VInt (nextID s)]> (default ∅ r1)), None)))
  /\ (default ∅ r1 !! "id" = None -> default ∅ r2 !! "id" = None ->
     GoInt.min_int <= nextID s < GoInt.max_int ->
     exists n1 n2,
       last (data s1 !!! c1) = Some (<["id" := VInt n1]> (default ∅ r1))
       /\ last (data s2 !!! c2) = Some (<["id" := VInt n2]> (default ∅ r2))
       /\ n1 = nextID s /\ n2 = nextID s + 1 /\ n1 < n2).
Proof.
  intros Hc1 Hc2 s1 s2.
  pose proof (Insert_unfold io1 c1 r1 s Hc1) as H1. simpl in H1.
  pose proof (Insert_unfold io2 c2 r2 s1 Hc2) as H2. simpl in H2.
  split; [|split].
  - intros v Hv. subst s1. rewrite H1, Hv. simpl.
    rewrite lookup_total_insert_eq. split; [done|]. split; [done|].
    by intros ->.
  - intros Hv. subst s1. rewrite H1, Hv. simpl.
    rewrite lookup_total_insert_eq. split; [done|]. by intros ->.
  - intros Hv1 Hv2 Hrange.
    exists (nextID s), (nextID s + 1).
    assert (Hn : nextID s1 = nextID s + 1).
    { subst s1. rewrite H1, Hv1. simpl. unfold GoInt.incr, GoInt.wrap.
      unfold GoInt.min_int, GoInt.max_int in Hrange.
      rewrite Z.mod_small by lia. lia. }
    split; [|split; [|repeat split; lia]].
    + subst s1. rewrite H1, Hv1. simpl.
      by rewrite lookup_total_insert_eq, last_snoc.
    + subst s2. rewrite H2, Hv2. simpl.
      by rewrite lookup_total_insert_eq, last_snoc, Hn.
Qed.

(** *** Ids over a lifetime, and after reopening *)












(** *** Matching *)

Lemma exact_number_value v a :
  exact_number v = Some a ->
  exists x, numberValue v = (x, true)
            /\ Float64.valid x = true /\ Float64.is_finite x = true
            /\ Float64.units x = a.
Proof.
  destruct v as [|b|n|n|x|x|s|s|m|l]; simpl; try done.
  - case_match eqn:Hr; [|done]. intros [= <-].
    apply andb_prop in Hr as [Hlo Hhi]. apply Z.leb_le in Hlo, Hhi.
    exists (Float64.of_int n). split; [done|]. by apply Float64Facts.of_int_exact.
  - case_match eqn:Hr; [|done]. intros [= <-].
    apply andb_prop in Hr as [Hlo Hhi]. apply Z.leb_le in Hlo, Hhi.
    exists (Float64.of_int n). split; [done|]. by apply Float64Facts.of_int_exact.
  - case_match eqn:Hr; [|done]. intros [= <-].
    apply andb_prop in Hr as [Hv Hf]. by exists x.
  - case_match eqn:Hr; [|done]. intros [= <-].
    apply andb_prop in Hr as [Hv Hf].
    exists (Float64.of_float32 x). split; [done|].
    by apply Float64Facts.of_float32_exact.
Qed.

(** C4, as amended. [matches] is true for empty criteria, and in general
    exactly when every criterion key is in the record with a value that is
    [valuesEqual] to the criterion's. [valuesEqual] compares two values that
    both convert to [float64] by [==] on the conversions, and every other
    pair by [DeepEqual]; on integers up to [2^53] in magnitude and on valid
    finite floats, [==] on the conversions is equality of the numbers. *)
Theorem matches_valuesEqual record criteria left right :
  (size criteria = 0%nat -> matches record criteria = true)
  /\ (matches record criteria = true <->
      forall key expected, criteria !! key = Some expected ->
        exists actual, record !! key = Some actual
                       /\ valuesEqual actual expected = true)
  /\ (forall x y, numberValue left = (x, true) -> numberValue right = (y, true) ->
      valuesEqual left right = Float64.eqb x y)
  /\ ((numberValue left).2 = false \/ (numberValue right).2 = false ->
      valuesEqual left right = DeepEqual left right)
  /\ (forall a b, exact_number left = Some a -> exact_number right = Some b ->
      (valuesEqual left right = true <-> a = b)).
Proof.
  split; [|split; [apply matches_spec|split; [|split]]].
  - intros Hsize. unfold matches. by rewrite bool_decide_eq_true_2.
  - intros x y Hl Hr. unfold valuesEqual. by rewrite Hl, Hr.
  - unfold valuesEqual.
    destruct (numberValue left) as [x okl], (numberValue right) as [y okr].
    simpl. intros [-> | ->]; [done|]. by rewrite andb_false_r.
  - intros a b Ha Hb.
    apply exact_number_value in Ha as (x & Hx & Hvx & Hfx & <-).
    apply exact_number_value in Hb as (y & Hy & Hvy & Hfy & <-).
    unfold valuesEqual. rewrite Hx, Hy. simpl.
    by apply Float64Facts.eqb_units.
Qed.

End Store.

(** *** Examples *)

#[local] Existing Instance strconv_decimal.

Example insert_then_query :
  Query "users" {[ "role" := VString "pilot" ]} store_ada
  = (([ {[ "id" := VInt 1; "name" := VString "Ada"; "role" := VString "pilot" ]} ],
      None), store_ada).
Proof. vm_compute. reflexivity. Qed.

Lemma collection_name_contract_witness :
  "users" <> ""
  /\ Insert io_ok "" (Some ada) store_ada = ((None, Some "collection is required"), store_ada)
  /\ Query "users" {[ "name" := VString "Ada" ]} store_ada
     = (([ {[ "id" := VInt 1; "name" := VString "Ada"; "role" := VString "pilot" ]} ],
         None), store_ada)
  /\ (Query "crew" {[ "name" := VString "Ada" ]} store_ada).1.1 = [].
Proof.
  assert (Hc : "users" <> "") by done.
  assert (Hc' : "crew" <> "") by done.
  pose proof (collection_name_contract io_ok "users"
                {[ "name" := VString "Ada" ]} ∅ (Some ada) store_ada Hc)
    as ((_ & Hi & _ & _) & Hq & _).
  pose proof (collection_name_contract io_ok "crew"
                {[ "name" := VString "Ada" ]} ∅ (Some ada) store_ada Hc')
    as (_ & _ & Hu).
  split; [done|]. split; [exact Hi|]. split.
  - rewrite Hq. vm_compute. reflexivity.
  - apply Hu. vm_compute. reflexivity.
Defined.

Lemma failed_save_keeps_mutation_witness :
  "users" <> ""
  /\ saveLocked io_readonly store_ada = Some "open db.json: read-only file system"
  /\ Update io_readonly "users"
       {[ "name" := VString "Ada" ]} {[ "role" := VString "commander" ]} store_ada
     = ((0, Some "open db.json: read-only file system"),
        {| path := "db.json";
           data := {[ "users" := [ {[ "id" := VInt 1; "name" := VString "Ada";
                                      "role" := VString "commander" ]} ] ]};
           nextID := 2 |})
  /\ Delete io_readonly "users" {[ "name" := VString "Ada" ]} store_ada
     = ((0, Some "open db.json: read-only file system"),
        {| path := "db.json"; data := {[ "users" := [] ]}; nextID := 2 |}).
Proof.
  assert (Hc : "users" <> "") by done.
  assert (Hs : saveLocked io_readonly store_ada
               = Some "open db.json: read-only file system") by reflexivity.
  pose proof (failed_save_keeps_mutation io_readonly "users"
                {[ "name" := VString "Ada" ]} {[ "role" := VString "commander" ]}
                store_ada _ Hc Hs) as [Hu Hd].
  split; [done|]. split; [done|]. split.
  - rewrite Hu. vm_compute. reflexivity.
  - rewrite Hd. vm_compute. reflexivity.
Defined.

Lemma insert_ids_witness :
  "users" <> "" /\ "crew" <> ""
  /\ GoInt.min_int <= nextID store_ada < GoInt.max_int
  /\ exists n1 n2,
       last (data (Insert io_ok "users" None store_ada).2 !!! "users")
         = Some (<["id" := VInt n1]> ∅)
       /\ last (data (Insert io_ok "crew" (Some ada)
                        (Insert io_ok "users" None store_ada).2).2 !!! "crew")
         = Some (<["id" := VInt n2]> ada)
       /\ n1 = 2 /\ n2 = 2 + 1 /\ n1 < n2.
Proof.
  assert (Hc1 : "users" <> "") by done.
  assert (Hc2 : "crew" <> "") by done.
  assert (Hr : GoInt.min_int <= nextID store_ada < GoInt.max_int) by (by vm_compute).
  pose proof (insert_ids io_ok io_ok "users" "crew" None (Some ada) store_ada Hc1 Hc2)
    as (_ & _ & H).
  split; [done|]. split; [done|]. split; [done|].
  apply H; [reflexivity|reflexivity|done].
Defined.

Lemma at_max_int_counter : nextID at_max_int = GoInt.max_int.
Proof. vm_compute. reflexivity. Qed.


(** C3 fails as stated: at the store [at_max_int] two consecutive inserts of
    records without ["id"] store the largest [int] and then the smallest. *)
Lemma insert_ids_counterexample :
  last (data (Insert io_ok "c" None at_max_int).2 !!! "c")
    = Some {[ "id" := VInt 9223372036854775807 ]}
  /\ last (data (Insert io_ok "c" None (Insert io_ok "c" None at_max_int).2).2 !!! "c")
    = Some {[ "id" := VInt (-9223372036854775808) ]}
  /\ ~ (9223372036854775807 < -9223372036854775808).
Proof. split; [by vm_compute|]. split; [by vm_compute|]. lia. Qed.




(** An id is unique within one opened store, not across reopenings: after
    three inserts and the deletion of the record with id 3 the store holds
    the ids 1 and 2, and a store opened from the file it wrote then issues 3
    again. *)
Example id_reissued_after_reopen :
  let fresh_store := {| path := "db.json"; data := ∅; nextID := 1 |} in
  let calls := [insert_blank; insert_blank; insert_blank;
                CallDelete io_ok "c" {[ "id" := VFloat64 (Float64.of_int 3) ]}] in
  let file : gmap string (list Record) :=
    {[ "c" := [ {[ "id" := VFloat64 (Float64.of_int 1) ]};
                {[ "id" := VFloat64 (Float64.of_int 2) ]} ] ]} in
  ids_issued calls fresh_store = [1; 2; 3]
  /\ data (run calls fresh_store) !!! "c"
     = [ {[ "id" := VInt 1 ]}; {[ "id" := VInt 2 ]} ]
  /\ nextID (default fresh_store (Open "db.json" (Unmarshalled file)).1) = 3.
Proof. by vm_compute. Qed.

(** C4 fails as stated: the record id [2^53 + 1] (an [int], as the store
    issues them) matches the criterion [2^53] (a [float64], as a script
    passes it), two different numbers with the same conversion. *)
Lemma matches_valuesEqual_counterexample :
  matches
    {[ "id" := VInt 9007199254740993 ]}
    {[ "id" := VFloat64 (Float64.of_int 9007199254740992) ]} = true
  /\ valuesEqual
       (VInt 9007199254740993) (VFloat64 (Float64.of_int 9007199254740992)) = true
  /\ Float64.units (Float64.of_int 9007199254740992)
     = Float64.int_units 9007199254740992
  /\ Float64.int_units 9007199254740993 <> Float64.int_units 9007199254740992.
Proof.
  split; [by vm_compute|]. split; [by vm_compute|]. split; [by vm_compute|].
  by vm_compute.
Qed.

(** The counterexample on a store: reopened from a file whose largest id is
    [2^53], the store issues [2^53 + 1], and a query for id [2^53] then
    returns both records. *)
Example query_returns_two_ids :
  let file : gmap string (list Record) :=
    {[ "c" := [ {[ "id" := VFloat64 (Float64.of_int 9007199254740992) ]} ] ]} in
  let s := default memory_store (Open "db.json" (Unmarshalled file)).1 in
  let s' := (Insert io_ok "c" None s).2 in
  (Query "c"
     {[ "id" := VFloat64 (Float64.of_int 9007199254740992) ]} s').1.1
  = [ {[ "id" := VFloat64 (Float64.of_int 9007199254740992) ]};
      {[ "id" := VInt 9007199254740993 ]} ].
Proof. by vm_compute. Qed.

End DocStoreFacts.

(** ** The document store on a heap *)

Module AliasingFacts.

Import DocStore.

Import Aliasing.

Section Store.

(** [matches(record, criteria)], which reads the heap and writes nothing. *)
Variable matches : heap -> loc -> option loc -> bool.

Lemma fresh_loc (h : heap) : h !! fresh (dom h) = None.
Proof. apply not_elem_of_dom, is_fresh. Qed.

Lemma entries_at_make (h : heap) record :
  entries_at (<[fresh (dom h) := OMap ∅]> h) record = entries_at h record.
Proof.
  destruct record as [l|]; [|done]. unfold entries_at.
  destruct (decide (fresh (dom h) = l)) as [<-|Hne].
  - by rewrite lookup_insert_eq, fresh_loc.
  - by rewrite lookup_insert_ne.
Qed.

Lemma entries_at_insert (h : heap) l E :
  entries_at (<[l := OMap E]> h) (Some l) = E.
Proof. unfold entries_at. by rewrite lookup_insert_eq. Qed.

(** [cloneRecord] allocates one map, gives it the entries of [record], and
    writes nowhere else. *)
Lemma cloneRecord_spec record (h : heap) :
  cloneRecord record h
  = (fresh (dom h), <[fresh (dom h) := OMap (entries_at h record)]> h).
Proof.
  unfold cloneRecord, make. rewrite entries_at_make. f_equal.
  set (copy := fresh (dom h)). set (h1 := <[copy := OMap ∅]> h).
  assert (Hfold : map_fold (fun key value h => assign copy key value h) h1
                    (entries_at h record)
                  = <[copy := OMap (entries_at h record)]> h1).
  { apply (map_fold_weak_ind
             (fun acc (m : gmap string hvalue) => acc = <[copy := OMap m]> h1)).
    - unfold h1. by rewrite insert_insert_eq.
    - intros key value m acc _ ->. unfold assign.
      by rewrite entries_at_insert, insert_insert_eq. }
  rewrite Hfold. unfold h1. by rewrite insert_insert_eq.
Qed.

Lemma Insert_spec io collection (record : loc) (h : heap) s :
  collection <> "" ->
  let E := with_id (nextID s) (entries_at h (Some record)) in
  let copy := fresh (dom h) in
  let h1 := <[copy := OMap E]> h in
  let result := fresh (dom h1) in
  let s' := {| path := path s;
               data := <[collection := (data s !!! collection) ++ [copy]]> (data s);
               nextID := match entries_at h (Some record) !! "id" with
                         | Some _ => nextID s
                         | None => GoInt.incr (nextID s)
                         end |} in
  Insert io collection (Some record) h s
  = match saveLocked io s with
    | Some err => ((None, Some err), h1, s')
    | None => ((Some result, None), <[result := OMap E]> h1, s')
    end.
Proof.
  intros Hc E copy h1 result s'. unfold Insert.
  rewrite decide_False by done. rewrite cloneRecord_spec. fold copy.
  assert (Hat : entries_at (<[copy := OMap (entries_at h (Some record))]> h) (Some copy)
                = entries_at h (Some record)).
  { apply entries_at_insert. }
  rewrite Hat. subst E s' h1. unfold with_id in *.
  assert (Hsave : forall d n,
             saveLocked io {| path := path s; data := d; nextID := n |}
             = saveLocked io s) by reflexivity.
  destruct (entries_at h (Some record) !! "id") eqn:Hid.
  - rewrite Hsave. destruct (saveLocked io s); [done|].
    rewrite cloneRecord_spec. by rewrite Hat.
  - unfold assign. rewrite Hat, insert_insert_eq.
    rewrite Hsave. destruct (saveLocked io s); [done|].
    rewrite cloneRecord_spec. by rewrite entries_at_insert.
Qed.

Lemma extends_refl h : extends h h.
Proof. by intros l _. Qed.

Lemma extends_fresh (h h' : heap) o :
  extends h h' -> extends h (<[fresh (dom h') := o]> h').
Proof.
  intros Hext l Hl. rewrite lookup_insert_ne; [by apply Hext|].
  intros <-. specialize (Hext _ Hl). rewrite fresh_loc in Hext.
  apply elem_of_dom in Hl as [? Hl]. congruence.
Qed.



Lemma entries_at_extends (h h' : heap) l :
  extends h h' -> l ∈ dom h -> entries_at h' (Some l) = entries_at h (Some l).
Proof. intros Hext Hl. unfold entries_at. by rewrite (Hext _ Hl). Qed.




(** *** The store on the heap, seen as values, is the store on values *)

Lemma view_extends (h h' : heap) depth v :
  closed h -> extends h h' ->
  (forall l, ref_of v = Some l -> l ∈ dom h) ->
  view depth h' v = view depth h v.
Proof.
  intros Hcl Hext. revert v. induction depth as [|depth IH]; intros v Hv; [done|].
  destruct v as [| | | | |l|l]; simpl; try done.
  - specialize (Hv l eq_refl). rewrite (Hext l Hv).
    destruct (h !! l) as [[entries|elems]|] eqn:Hl; try done.
    f_equal. apply map_fmap_ext. intros key x Hx. apply IH.
    intros l' Hl'. eapply (Hcl l (OMap entries) x); [done| |done].
    simpl. apply list_elem_of_fmap. exists (key, x).
    split; [done|]. by apply elem_of_map_to_list.
  - specialize (Hv l eq_refl). rewrite (Hext l Hv).
    destruct (h !! l) as [[entries|elems]|] eqn:Hl; try done.
    f_equal. apply list_fmap_ext. intros i x Hx. apply IH.
    intros l' Hl'. eapply (Hcl l (OArray elems) x); [done| |done].
    simpl. by eapply list_elem_of_lookup_2.
Qed.

Lemma view_entries_extends (h h' : heap) depth l :
  closed h -> extends h h' -> l ∈ dom h ->
  view depth h' <$> entries_at h (Some l) = view depth h <$> entries_at h (Some l).
Proof.
  intros Hcl Hext Hl. apply map_fmap_ext. intros key x Hx.
  apply view_extends; [done|done|].
  intros l' Hl'. unfold entries_at in Hx.
  destruct (h !! l) as [[entries|elems]|] eqn:Hhl; try done.
  eapply (Hcl l (OMap entries) x); [done| |done].
  simpl. apply list_elem_of_fmap. exists (key, x).
  split; [done|]. by apply elem_of_map_to_list.
Qed.

Lemma view_record_extends (h h' : heap) depth l :
  closed h -> extends h h' -> l ∈ dom h ->
  view_record depth h' l = view_record depth h l.
Proof.
  intros Hcl Hext Hl. unfold view_record.
  rewrite (entries_at_extends h h') by done. by apply view_entries_extends.
Qed.

Lemma view_store_extends (h h' : heap) depth s c :
  closed h -> extends h h' ->
  (forall c records, data s !! c = Some records ->
                     Forall (fun l => l ∈ dom h) records) ->
  DocStore.data (view_store depth h' s) = DocStore.data (view_store depth h s)
  /\ DocStore.data (view_store depth h s) !!! c
     = view_record depth h <$> (data s !!! c).
Proof.
  intros Hcl Hext Hall. split.
  - simpl. apply map_fmap_ext. intros c' records Hc'.
    apply list_fmap_ext. intros i l Hl. apply view_record_extends; [done|done|].
    specialize (Hall c' records Hc'). rewrite Forall_forall in Hall.
    apply Hall. by eapply list_elem_of_lookup_2.
  - simpl. rewrite !lookup_total_alt, lookup_fmap.
    by destruct (data s !! c).
Qed.

(** [Insert] on the heap does to the values the store holds what [Insert]
    on values does, and returns the same. *)
Lemma Insert_refines io collection (record : loc) (h : heap) s depth :
  collection <> "" -> closed h -> record ∈ dom h ->
  (forall c records, data s !! c = Some records ->
                     Forall (fun l => l ∈ dom h) records) ->
  let on_heap := Insert io collection (Some record) h s in
  let on_values :=
    DocStore.Insert io collection (Some (view_record (S depth) h record))
      (view_store (S depth) h s) in
  view_store (S depth) on_heap.1.2 on_heap.2 = on_values.2
  /\ on_heap.1.1.2 = on_values.1.2
  /\ view_record (S depth) on_heap.1.2 <$> on_heap.1.1.1 = on_values.1.1.
Proof.
  intros Hc Hcl Hrec Hall on_heap on_values.
  pose proof (Insert_spec io collection record h s Hc) as Hspec. cbv zeta in Hspec.
  pose proof (DocStoreFacts.Insert_unfold io collection
                (Some (view_record (S depth) h record))
                (view_store (S depth) h s) Hc) as Hval. cbv zeta in Hval.
  fold on_heap in Hspec. fold on_values in Hval.
  set (E0 := entries_at h (Some record)) in *.
  set (E := with_id (nextID s) E0) in *.
  set (copy := fresh (dom h)) in *.
  set (h1 := <[copy := OMap E]> h) in *.
  set (result := fresh (dom h1)) in *.
  assert (Hext1 : extends h h1) by (apply extends_fresh, extends_refl).
  assert (Hext2 : extends h (<[result := OMap E]> h1)) by (by apply extends_fresh).
  assert (Hcopy : copy ∉ dom h) by apply is_fresh.
  assert (Hne : result <> copy).
  { intros Heq. apply (is_fresh (dom h1)). fold result. rewrite Heq.
    unfold h1. rewrite dom_insert. set_solver. }
  (* the entries stored, as values *)
  assert (HE : forall h', extends h h' ->
             view (S depth) h' <$> E
             = match view_record (S depth) h record !! "id" with
               | Some _ => view_record (S depth) h record
               | None => <["id" := VInt (nextID s)]> (view_record (S depth) h record)
               end).
  { intros h' Hext'. unfold view_record. fold E0. rewrite lookup_fmap.
    unfold E, with_id. destruct (E0 !! "id") as [x|] eqn:Hid.
    - change (view (S depth) h <$> Some x) with (Some (view (S depth) h x)).
      cbv iota. by apply view_entries_extends.
    - change (view (S depth) h <$> None) with (@None value).
      cbv iota. rewrite fmap_insert. f_equal. by apply view_entries_extends. }
  assert (Hsave : DocStore.saveLocked io (view_store (S depth) h s) = saveLocked io s)
    by reflexivity.
  assert (Hnext : match view_record (S depth) h record !! "id" with
                  | Some _ => nextID s
                  | None => GoInt.incr (nextID s)
                  end
                  = match E0 !! "id" with
                    | Some _ => nextID s
                    | None => GoInt.incr (nextID s)
                    end).
  { unfold view_record. fold E0. rewrite lookup_fmap. by destruct (E0 !! "id"). }
  assert (Hdata : forall h', extends h h' -> h' !! copy = Some (OMap E) ->
            (fun records : list loc => view_record (S depth) h' <$> records)
              <$> <[collection := (data s !!! collection) ++ [copy]]> (data s)
            = <[collection := (DocStore.data (view_store (S depth) h s) !!! collection)
                              ++ [view (S depth) h' <$> E]]>
                (DocStore.data (view_store (S depth) h s))).
  { intros h' Hext' Hh'.
    destruct (view_store_extends h h' (S depth) s collection Hcl Hext' Hall)
      as [Hd Hc'].
    rewrite fmap_insert, fmap_app. simpl in Hd. rewrite Hd.
    f_equal. rewrite Hc'. f_equal.
    - apply list_fmap_ext. intros i l Hl. apply view_record_extends; [done|done|].
      destruct (data s !! collection) as [records|] eqn:Hrecs.
      + specialize (Hall _ _ Hrecs). rewrite Forall_forall in Hall.
        apply Hall. rewrite lookup_total_alt, Hrecs in Hl.
        by eapply list_elem_of_lookup_2.
      + by rewrite lookup_total_alt, Hrecs in Hl.
    - simpl. unfold view_record, entries_at. by rewrite Hh'. }
  rewrite Hsave in Hval.
  destruct (saveLocked io s) as [err|] eqn:Hs.
  - rewrite Hspec, Hval. simpl.
    split; [|done]. unfold view_store. simpl. f_equal; [|done].
    rewrite (Hdata h1 Hext1) by (unfold h1; by rewrite lookup_insert_eq).
    by rewrite (HE h1 Hext1).
  - rewrite Hspec, Hval. cbn [fst snd].
    split; [|split; [done|]].
    + unfold view_store. simpl. f_equal; [|done].
      rewrite (Hdata _ Hext2)
        by (rewrite lookup_insert_ne by done; unfold h1; by rewrite lookup_insert_eq).
      by rewrite (HE _ Hext2).
    + simpl. f_equal. unfold view_record. rewrite entries_at_insert.
      by apply HE.
Qed.

End Store.

(** The caller's record of the example, inserted on the heap and read back as
    values, is the store that inserting its value gives. *)
Example Insert_refines_pilot :
  view_store 2 inserted.1.2 inserted.2
  = (DocStore.Insert io_ok "users" (Some (view_record 2 pilot_heap 1%positive))
       (view_store 2 pilot_heap empty_store)).2.
Proof.
  apply (Insert_refines matches_all io_ok "users" 1%positive pilot_heap empty_store 1).
  - done.
  - intros l o v l' Hl Hv Href. unfold pilot_heap in Hl.
    apply lookup_insert_Some in Hl as [[<- <-]|[_ Hl]].
    + vm_compute in Hv. apply elem_of_cons in Hv as [->|Hv].
      * done.
      * apply elem_of_cons in Hv as [->|Hv]; [|by apply elem_of_nil in Hv].
        injection Href as <-. by vm_compute.
    + apply lookup_singleton_Some in Hl as [<- <-].
      vm_compute in Hv. apply elem_of_cons in Hv as [->|Hv]; [done|].
      by apply elem_of_nil in Hv.
  - by vm_compute.
  - intros c records Hrecs. simpl in Hrecs. by rewrite lookup_empty in Hrecs.
Qed.



End AliasingFacts.

(** ** The key/value store *)

Module KVFacts.

Import DocStore Lua KV.

(** *** The string order *)

Lemma string_compare_trans a b c :
  String.compare a b <> Gt -> String.compare b c <> Gt -> String.compare a c <> Gt.
Proof.
  revert b c. induction a as [|x a IH]; intros [|y b] [|z c]; simpl; try done.
  unfold Ascii.compare.
  destruct (N.compare_spec (N_of_ascii x) (N_of_ascii y)) as [Hxy|Hxy|Hxy]; try done;
    destruct (N.compare_spec (N_of_ascii y) (N_of_ascii z)) as [Hyz|Hyz|Hyz]; try done;
    destruct (N.compare_spec (N_of_ascii x) (N_of_ascii z)) as [Hxz|Hxz|Hxz];
    try done; try lia.
  apply IH.
Qed.

#[export] Instance string_le_total : Total string_le.
Proof. intros a b. apply String.leb_total. Qed.

#[export] Instance string_le_trans : Transitive string_le.
Proof.
  intros a b c. unfold string_le, String.leb.
  intros Hab Hbc.
  pose proof (string_compare_trans a b c) as H.
  destruct (String.compare a b), (String.compare b c), (String.compare a c);
    try done; exfalso; by apply H.
Qed.

#[export] Instance string_le_antisym : AntiSymm (=) string_le.
Proof. intros a b. apply String.leb_antisym. Qed.

(** *** Tables filled by [RawSetInt] *)

Lemma RawSetInt_int_keyed k v entries :
  0 <= k <= 2 ^ 53 -> int_keyed entries -> int_keyed (RawSetInt k v entries).
Proof.
  intros Hk. induction 1 as [|[key value] entries (j & Hj & Hkey) Hrest IH]; simpl.
  - repeat constructor. by exists k.
  - simpl in Hkey. subst key.
    destruct (Float64.eqb _ _); constructor; try done; simpl; eauto.
Qed.

Lemma RawGetInt_RawSetInt k k' v entries :
  0 <= k <= 2 ^ 53 -> 0 <= k' <= 2 ^ 53 -> int_keyed entries ->
  RawGetInt k' (RawSetInt k v entries)
  = if decide (k' = k) then v else RawGetInt k' entries.
Proof.
  intros Hk Hk'. induction 1 as [|[key value] entries (j & Hj & Hkey) Hrest IH]; simpl.
  - destruct (Float64.eqb (Float64.of_int k') (Float64.of_int k)) eqn:He.
    + apply Float64Facts.of_int_eqb in He; [|lia|lia]. by rewrite decide_True.
    + case_decide as Hd; [|done]. subst k'.
      assert (Float64.eqb (Float64.of_int k) (Float64.of_int k) = true) as Ht
        by (apply Float64Facts.of_int_eqb; lia).
      congruence.
  - simpl in Hkey. subst key.
    destruct (Float64.eqb (Float64.of_int k) (Float64.of_int j)) eqn:Hkj; simpl.
    + apply Float64Facts.of_int_eqb in Hkj; [|lia|lia]. subst j.
      destruct (Float64.eqb (Float64.of_int k') (Float64.of_int k)) eqn:He.
      * apply Float64Facts.of_int_eqb in He; [|lia|lia]. by rewrite decide_True.
      * case_decide as Hd; [|done]. subst k'.
        assert (Float64.eqb (Float64.of_int k) (Float64.of_int k) = true) as Ht
          by (apply Float64Facts.of_int_eqb; lia).
        congruence.
    + destruct (Float64.eqb (Float64.of_int k') (Float64.of_int j)) eqn:He; [|done].
      apply Float64Facts.of_int_eqb in He; [|lia|lia]. subst j.
      case_decide as Hd; [|done]. subst k'.
      assert (Float64.eqb (Float64.of_int k) (Float64.of_int k) = true) as Ht
        by (apply Float64Facts.of_int_eqb; lia).
      congruence.
Qed.

Lemma RawSetInts_other {A} (f : A -> LValue) i items entries k :
  0 <= k <= i -> i + Z.of_nat (length items) <= 2 ^ 53 -> int_keyed entries ->
  RawGetInt k (RawSetInts f i items entries) = RawGetInt k entries.
Proof.
  revert i entries. induction items as [|item items IH]; intros i entries Hk Hlen Hkeys;
    simpl; [done|].
  simpl length in Hlen. rewrite Nat2Z.inj_succ in Hlen.
  rewrite IH; [|lia|lia|apply RawSetInt_int_keyed; [lia|done]].
  rewrite RawGetInt_RawSetInt by (done || lia).
  by rewrite decide_False by lia.
Qed.

Lemma RawSetInts_lookup {A} (f : A -> LValue) i items entries n item :
  0 <= i -> i + Z.of_nat (length items) <= 2 ^ 53 -> int_keyed entries ->
  items !! n = Some item ->
  RawGetInt (i + Z.of_nat n + 1) (RawSetInts f i items entries) = f item.
Proof.
  revert i entries n. induction items as [|item' items IH];
    intros i entries n Hi Hlen Hkeys Hn; [done|].
  simpl length in Hlen. rewrite Nat2Z.inj_succ in Hlen. simpl.
  destruct n as [|n]; simpl in Hn.
  - injection Hn as ->.
    rewrite RawSetInts_other; [|lia|lia|apply RawSetInt_int_keyed; [lia|done]].
    rewrite RawGetInt_RawSetInt by (done || lia).
    by rewrite decide_True by lia.
  - replace (i + Z.of_nat (S n) + 1) with ((i + 1) + Z.of_nat n + 1) by lia.
    apply IH; [lia|lia|apply RawSetInt_int_keyed; [lia|done]|done].
Qed.

(** *** The keys *)

Lemma Keys_loop_fst (visited : list (string * value)) acc :
  foldl (fun keys kv => keys ++ [kv.1]) acc visited = acc ++ visited.*1.
Proof.
  revert acc. induction visited as [|kv visited IH]; intros acc; simpl.
  - by rewrite app_nil_r.
  - by rewrite IH, <- app_assoc.
Qed.

Lemma Keys_Permutation s keys :
  Keys s keys -> keys ≡ₚ (map_to_list (data s)).*1.
Proof.
  intros (visited & Hperm & ->). unfold Keys_loop.
  rewrite Keys_loop_fst. simpl. by rewrite Hperm.
Qed.

(** C7. Whatever order [Keys] returned the keys in, what [sugarKeys] sorts
    them into is the keys of the store in increasing order, each key once,
    and the table it builds (for up to [2^53] keys, the integers a Lua number
    holds exactly) has them at the indices 1, 2, ... *)
Theorem sugarKeys_sorted s keys :
  Keys s keys ->
  let sorted := sort_Strings keys in
  Sorted string_le sorted
  /\ NoDup sorted
  /\ (forall key, key ∈ sorted <-> is_Some (data s !! key))
  /\ (forall keys', Keys s keys' -> sort_Strings keys' = sorted)
  /\ (Z.of_nat (length keys) <= 2 ^ 53 ->
      forall i key, sorted !! i = Some key ->
        RawGetInt (Z.of_nat i + 1) (sugarKeys keys) = LString key).
Proof.
  intros Hkeys sorted.
  pose proof (Keys_Permutation s keys Hkeys) as Hperm.
  assert (Hsorted_perm : sorted ≡ₚ keys) by apply merge_sort_Permutation.
  assert (Hall : sorted ≡ₚ (map_to_list (data s)).*1) by (by etrans).
  split; [apply Sorted_merge_sort, _|].
  split; [|split; [|split]].
  - rewrite Hall. apply NoDup_fst_map_to_list.
  - intros key. rewrite Hall.
    rewrite list_elem_of_fmap. split.
    + intros ([k v] & -> & Hin). apply elem_of_map_to_list in Hin. by exists v.
    + intros [v Hv]. exists (key, v). split; [done|]. by apply elem_of_map_to_list.
  - intros keys' Hkeys'.
    pose proof (Keys_Permutation s keys' Hkeys') as Hperm'.
    apply (Sorted_unique string_le); [apply Sorted_merge_sort, _..|].
    etrans; [apply merge_sort_Permutation|].
    etrans; [exact Hperm'|]. by symmetry.
  - intros Hlen i key Hi. unfold sugarKeys. fold sorted.
    replace (Z.of_nat i + 1) with (0 + Z.of_nat i + 1) by lia.
    apply RawSetInts_lookup; [lia| |constructor|done].
    rewrite Hsorted_perm. lia.
Qed.

Lemma sugarKeys_sorted_witness :
  Keys crew ["grace"; "ada"; "bob"]
  /\ Z.of_nat (length ["grace"; "ada"; "bob"]) <= 2 ^ 53
  /\ sort_Strings ["grace"; "ada"; "bob"] = ["ada"; "bob"; "grace"]
  /\ Sorted string_le (sort_Strings ["grace"; "ada"; "bob"])
  /\ RawGetInt 1 (sugarKeys ["grace"; "ada"; "bob"]) = LString "ada".
Proof.
  assert (Hk : Keys crew ["grace"; "ada"; "bob"]).
  { exists [("grace", VBool true); ("ada", VString "pilot"); ("bob", VNil)].
    split; [|reflexivity]. vm_compute. reflexivity. }
  assert (Hl : Z.of_nat (length ["grace"; "ada"; "bob"]) <= 2 ^ 53) by (by vm_compute).
  pose proof (sugarKeys_sorted crew _ Hk) as (Hs & _ & _ & _ & Hget).
  split; [done|]. split; [done|]. split; [by vm_compute|]. split; [done|].
  apply (Hget Hl 0%nat). by vm_compute.
Defined.

End KVFacts.

(** ** The scripting bridge *)

Module BridgeFacts.

Import DocStore Lua Bridge.

Section Engine.

(** [String()] of a Lua value other than a string. *)
Variable String_of : LValue -> string.

(** The interpreter state [e.L]. *)
Variable LState : Type.

(** C8. When the handler raises, the closure calls it once, never reads its
    return values, and answers with one [c.JSON] of status 500 whose object
    has the error text under ["error"]. *)
Theorem handler_error_gives_500 (handler : LFunction LState) c st reqTable err st' :
  requestToLuaTable c = inl reqTable ->
  handler reqTable st = (Raised err, st') ->
  let events := (serve String_of LState handler c st).1 in
  gin_calls events = [JSON 500 (VMap {[ "error" := VString err ]})]
  /\ length (filter (fun ev => is_call ev = true) events) = 1%nat
  /\ filter (fun ev => is_parse ev = true) events = []
  /\ events = [Lock; Call reqTable; Gin (JSON 500 (error_body err)); Unlock]
  /\ (serve String_of LState handler c st).2 = st'.
Proof.
  intros Hreq Hcall. unfold serve. rewrite Hreq, Hcall. simpl.
  by repeat split.
Qed.

(** The closure calls the handler at most once, whatever happens. *)
Lemma serve_calls_once (handler : LFunction LState) c st :
  (length (filter (fun ev => is_call ev = true)
             (serve String_of LState handler c st).1) <= 1)%nat.
Proof.
  unfold serve. destruct (requestToLuaTable c) as [reqTable|err]; [|simpl; lia].
  destruct (handler reqTable st) as [[err|sv bv hv] st']; [simpl; lia|].
  destruct (parseLuaResponse String_of sv bv hv) as [[status body] headers]. cbn [fst].
  rewrite !filter_app.
  assert (Hh : forall l : list (string * string),
             filter (fun ev => is_call ev = true)
               ((fun kv => Gin (Header_ kv.1 kv.2)) <$> l) = []).
  { induction l as [|kv l IH]; [done|]. by rewrite fmap_cons, filter_cons_False. }
  rewrite Hh. simpl.
  destruct body as [[]|]; simpl; lia.
Qed.

End Engine.

Lemma handler_error_gives_500_witness :
  requestToLuaTable hello_request = inl hello_table
  /\ raises hello_table 0%nat = (Raised "app.lua:2: boom", 1%nat)
  /\ gin_calls (serve String_of_plain nat raises hello_request 0%nat).1
     = [JSON 500 (VMap {[ "error" := VString "app.lua:2: boom" ]})]
  /\ (serve String_of_plain nat raises hello_request 0%nat).2 = 1%nat.
Proof.
  assert (Hreq : requestToLuaTable hello_request = inl hello_table) by reflexivity.
  assert (Hcall : raises hello_table 0%nat = (Raised "app.lua:2: boom", 1%nat))
    by reflexivity.
  pose proof (handler_error_gives_500 String_of_plain nat raises hello_request
                0%nat hello_table _ _ Hreq Hcall) as (Hgin & _ & _ & _ & Hst).
  split; [done|]. split; [done|]. split; [exact Hgin|exact Hst].
Defined.

(** The handler of the README, [return 200, { message = "hello " ..
    req.params.name }, { ["x-powered-by"] = "lua" }]. *)
Example hello_response :
  gin_calls
    (serve String_of_plain nat
       (fun _ calls =>
          (Returned (LNumber (Float64.of_int 200))
             (LTable [(LString "message", LString "hello Ada")])
             (LTable [(LString "x-powered-by", LString "lua")]), S calls))
       hello_request 0%nat).1
  = [Header_ "x-powered-by" "lua";
     JSON 200 (VMap {[ "message" := VString "hello Ada" ]})].
Proof. by vm_compute. Qed.

End BridgeFacts.

(** ** The runtime manager *)

Module LifecycleFacts.

Import Lifecycle.

(** *** The invariant holds along every interleaving *)

Lemma start_Inv path : Inv (start path None).
Proof.
  constructor; simpl; try done.
  - exists 0%nat. split; [done|]. split; [set_solver|lia].
Qed.

Lemma step_running l s s' : step l s = Some s' -> exited s = false.
Proof. unfold step. by destruct (exited s). Qed.

Lemma requests_empty s :
  Inv s -> writer s = true -> requests s = ∅.
Proof.
  intros HI Hw. apply map_size_empty_inv.
  rewrite <- (inv_readers s HI). by apply (inv_exclusive s HI).
Qed.

(** Case analysis on one or two keys of a table after [<[w := pc]>]. *)
Ltac one_key w w1 H1 :=
  destruct (decide (w = w1)) as [<-|?];
  [rewrite lookup_insert_eq in H1; first [discriminate H1 | injection H1 as <-]
  |rewrite lookup_insert_ne in H1 by done].

Ltac two_keys w w1 w2 H1 H2 :=
  destruct (decide (w = w1)) as [<-|?]; destruct (decide (w = w2)) as [<-|?];
  [done
  |rewrite lookup_insert_eq in H1; injection H1 as <-;
   rewrite lookup_insert_ne in H2 by done
  |rewrite lookup_insert_ne in H1 by done;
   rewrite lookup_insert_eq in H2; injection H2 as <-
  |rewrite lookup_insert_ne in H1, H2 by done].

Lemma step_Inv l s s' : Inv s -> step l s = Some s' -> Inv s'.
Proof.
  intros HI Hstep. pose proof (step_running _ _ _ Hstep) as Hrun.
  unfold step in Hstep. rewrite Hrun in Hstep.
  destruct HI as [_ Hreaders Hexcl Hwriter Hcurrent Hsingle Hclosed
                    (g0 & Hrt & Hg0c & Hg0a) Hcust Hdist].
  destruct l as [r|r|r|r|w|w err|w|w|w|w].
  - (* RLock *)
    destruct (requests s !! r) eqn:Hr; [done|].
    destruct (writer s) eqn:Hw; [done|]. injection Hstep as <-.
    constructor; simpl; [done| |done| | |done|done| |done|done].
    + rewrite map_size_insert_None by done. by rewrite Hreaders.
    + intros w pc Hpc Hh. rewrite <- Hw. eauto.
    + intros r' current Hr'. one_key r r' Hr'; eauto.
    + eauto.
  - (* ReadRuntime *)
    destruct (requests s !! r) as [[|current]|] eqn:Hr; try done.
    injection Hstep as <-.
    constructor; simpl; [done| |done|done| |done|done| |done|done].
    + by rewrite map_size_insert_Some.
    + intros r' current Hr'. one_key r r' Hr'; eauto.
    + eauto.
  - (* Serve *)
    destruct (requests s !! r) as [[|[current|]]|] eqn:Hr; try done.
    injection Hstep as <-. constructor; eauto.
  - (* RUnlock *)
    destruct (requests s !! r) as [[|current]|] eqn:Hr; try done.
    injection Hstep as <-.
    constructor; simpl; [done| | |done| |done|done| |done|done].
    + rewrite map_size_delete_Some by done. by rewrite Hreaders.
    + intros Hw. by rewrite (Hexcl Hw).
    + intros r' current' Hr'. apply lookup_delete_Some in Hr' as [_ Hr']. eauto.
    + eauto.
  - (* BuildOk *)
    destruct (reloads s !! w) eqn:Hw; [done|]. injection Hstep as <-.
    constructor; simpl; [done|done|done| |done| | | | |].
    + intros w' pc Hpc Hh. one_key w w' Hpc; [done|eauto].
    + intros w1 w2 pc1 pc2 H1 H2 Hh1 Hh2. two_keys w w1 w2 H1 H2; try done. eauto.
    + intros g Hg. specialize (Hclosed g Hg). lia.
    + exists g0. split; [done|]. split; [done|lia].
    + intros w' pc g Hpc Hc. one_key w w' Hpc.
      * simpl in Hc. injection Hc as <-.
        split; [intros Hin; specialize (Hclosed _ Hin); lia|].
        split; [lia|]. rewrite Hrt. intros [= ->]. lia.
      * destruct (Hcust w' pc g Hpc Hc) as (? & ? & ?).
        split; [done|]. split; [lia|done].
    + intros w1 w2 pc1 pc2 g H1 H2 Hc1 Hc2. two_keys w w1 w2 H1 H2.
      * simpl in Hc1. injection Hc1 as <-.
        destruct (Hcust w2 pc2 _ H2 Hc2) as (? & ? & ?). lia.
      * simpl in Hc2. injection Hc2 as <-.
        destruct (Hcust w1 pc1 _ H1 Hc1) as (? & ? & ?). lia.
      * eauto.
  - (* BuildFail *)
    destruct (reloads s !! w) eqn:Hw; [done|]. injection Hstep as <-.
    constructor; simpl; [done|done|done|done|done|done| | | |done].
    + intros g Hg. apply elem_of_union in Hg as [Hg|Hg].
      * apply elem_of_singleton in Hg as ->. lia.
      * specialize (Hclosed g Hg). lia.
    + exists g0. split; [done|]. split; [|lia].
      intros Hin. apply elem_of_union in Hin as [Hin|Hin]; [|done].
      apply elem_of_singleton in Hin. lia.
    + intros w' pc g Hpc Hc.
      destruct (Hcust w' pc g Hpc Hc) as (? & ? & ?).
      split; [|split; [lia|done]].
      intros Hin. apply elem_of_union in Hin as [Hin|Hin]; [|done].
      apply elem_of_singleton in Hin. lia.
  - (* WLock *)
    destruct (reloads s !! w) as [[next|next|old|old]|] eqn:Hw; try done.
    destruct (writer s) eqn:Hwr; [done|].
    destruct (readers s) eqn:Hrd; [|done]. injection Hstep as <-.
    constructor; simpl; [done|done|done|done|done| |done| | |].
    + intros w1 w2 pc1 pc2 H1 H2 Hh1 Hh2. two_keys w w1 w2 H1 H2.
      * specialize (Hwriter _ _ H2 Hh2). congruence.
      * specialize (Hwriter _ _ H1 Hh1). congruence.
      * eauto.
    + eauto.
    + intros w' pc g Hpc Hc. one_key w w' Hpc; [|eauto].
      apply (Hcust w (Built next) g Hw Hc).
    + intros w1 w2 pc1 pc2 g H1 H2 Hc1 Hc2. two_keys w w1 w2 H1 H2.
      * apply (Hdist w w2 (Built next) pc2 g Hw H2 Hc1 Hc2).
      * apply (Hdist w1 w pc1 (Built next) g H1 Hw Hc1 Hc2).
      * eauto.
  - (* SwapPtr *)
    destruct (reloads s !! w) as [[next|next|old|old]|] eqn:Hw; try done.
    injection Hstep as <-.
    assert (Hwr : writer s = true) by (by eapply Hwriter).
    assert (Hempty : requests s = ∅).
    { apply map_size_empty_inv. rewrite <- Hreaders. by apply Hexcl. }
    destruct (Hcust w (Locked next) next Hw eq_refl) as (Hnc & Hna & Hnr).
    constructor; simpl; [done|done|done| | | |done| | |].
    + intros w' pc Hpc Hh. done.
    + intros r current Hr. rewrite Hempty in Hr. by rewrite lookup_empty in Hr.
    + intros w1 w2 pc1 pc2 H1 H2 Hh1 Hh2. two_keys w w1 w2 H1 H2.
      * apply (Hsingle w w2 (Locked next) pc2 Hw H2 eq_refl Hh2).
      * apply (Hsingle w1 w pc1 (Locked next) H1 Hw Hh1 eq_refl).
      * eauto.
    + exists next. done.
    + intros w' pc g Hpc Hc. one_key w w' Hpc.
      * simpl in Hc. rewrite Hrt in Hc. injection Hc as <-.
        split; [done|]. split; [done|]. intros [= ->]. by apply Hnr.
      * destruct (Hcust w' pc g Hpc Hc) as (? & ? & ?).
        split; [done|]. split; [done|]. intros [= ->].
        assert (w = w') by apply (Hdist w w' (Locked g) pc g Hw Hpc eq_refl Hc).
        done.
    + intros w1 w2 pc1 pc2 g H1 H2 Hc1 Hc2. two_keys w w1 w2 H1 H2.
      * simpl in Hc1. destruct (Hcust w2 pc2 g H2 Hc2) as (? & ? & ?). done.
      * simpl in Hc2. destruct (Hcust w1 pc1 g H1 Hc1) as (? & ? & ?). done.
      * eauto.
  - (* WUnlock *)
    destruct (reloads s !! w) as [[next|next|old|old]|] eqn:Hw; try done.
    injection Hstep as <-.
    constructor; simpl; [done|done|done| |done| |done| | |].
    + intros w' pc Hpc Hh. one_key w w' Hpc; [done|].
      assert (w = w') by apply (Hsingle w w' (Swapped old) pc Hw Hpc eq_refl Hh).
      done.
    + intros w1 w2 pc1 pc2 H1 H2 Hh1 Hh2. two_keys w w1 w2 H1 H2; try done. eauto.
    + eauto.
    + intros w' pc g Hpc Hc. one_key w w' Hpc; [|eauto].
      apply (Hcust w (Swapped old) g Hw Hc).
    + intros w1 w2 pc1 pc2 g H1 H2 Hc1 Hc2. two_keys w w1 w2 H1 H2.
      * apply (Hdist w w2 (Swapped old) pc2 g Hw H2 Hc1 Hc2).
      * apply (Hdist w1 w pc1 (Swapped old) g H1 Hw Hc1 Hc2).
      * eauto.
  - (* Close *)
    destruct (reloads s !! w) as [[next|next|old|old]|] eqn:Hw; try done.
    injection Hstep as <-.
    constructor; simpl; [done|done|done| |done| | | | |].
    + intros w' pc Hpc Hh. apply lookup_delete_Some in Hpc as [_ Hpc]. eauto.
    + intros w1 w2 pc1 pc2 H1 H2.
      apply lookup_delete_Some in H1 as [_ H1].
      apply lookup_delete_Some in H2 as [_ H2]. eauto.
    + intros g Hg. destruct old as [old|]; [|eauto].
      apply elem_of_union in Hg as [Hg|Hg]; [|eauto].
      apply elem_of_singleton in Hg as ->.
      by destruct (Hcust w (Unlocked (Some old)) old Hw eq_refl) as (? & ? & ?).
    + exists g0. split; [done|]. split; [|done].
      destruct old as [old|]; [|done].
      intros Hin. apply elem_of_union in Hin as [Hin|Hin]; [|done].
      apply elem_of_singleton in Hin as <-.
      destruct (Hcust w (Unlocked (Some g0)) g0 Hw eq_refl) as (? & ? & ?). done.
    + intros w' pc g Hpc Hc. apply lookup_delete_Some in Hpc as [Hne Hpc].
      destruct (Hcust w' pc g Hpc Hc) as (? & ? & ?).
      split; [|done]. destruct old as [old|]; [|done].
      intros Hin. apply elem_of_union in Hin as [Hin|Hin]; [|done].
      apply elem_of_singleton in Hin as ->.
      apply Hne. apply (Hdist w w' (Unlocked (Some old)) pc old Hw Hpc eq_refl Hc).
    + intros w1 w2 pc1 pc2 g H1 H2.
      apply lookup_delete_Some in H1 as [_ H1].
      apply lookup_delete_Some in H2 as [_ H2]. eauto.
Qed.

Lemma run_Inv labels s s' : Inv s -> run labels s = Some s' -> Inv s'.
Proof.
  revert s. induction labels as [|l labels IH]; intros s HI Hrun; simpl in Hrun.
  - by injection Hrun as <-.
  - destruct (step l s) as [s1|] eqn:Hstep; [|done].
    eapply IH; [|done]. by eapply step_Inv.
Qed.

(** *** The two claims on reloads *)

(** C1. Along every interleaving of requests and reloads: a request in
    flight holds the read lock (so no writer does); once it has read the
    pointer, the runtime it captured is the live one and its engine is open;
    the pointer is swapped only with no request in flight; an engine is
    closed only by the reload that swapped it out, after the swap, when it
    is no longer live and no request is on it; and no step of another
    goroutine moves a request or changes the runtime it captured. *)
Theorem requests_keep_their_runtime path labels s :
  run labels (start path None) = Some s ->
  (forall r pc, requests s !! r = Some pc ->
     writer s = false /\ (0 < readers s)%nat)
  /\ (forall r current, requests s !! r = Some (ReqServing current) ->
       exists g, current = Some g /\ runtime s = Some g /\ (g ∉ closed s))
  /\ (forall w s', step (SwapPtr w) s = Some s' -> requests s = ∅)
  /\ (forall w s', step (Close w) s = Some s' ->
       exists old, reloads s !! w = Some (Unlocked old)
         /\ closed s' = match old with
                        | Some g => {[ g ]} ∪ closed s
                        | None => closed s
                        end
         /\ forall g, old = Some g ->
              runtime s <> Some g
              /\ forall r, requests s !! r <> Some (ReqServing (Some g)))
  /\ (forall l s' r pc, step l s = Some s' -> label_request l <> Some r ->
       requests s !! r = Some pc -> requests s' !! r = Some pc).
Proof.
  intros Hrun.
  pose proof (run_Inv _ _ _ (start_Inv path) Hrun) as HI.
  split; [|split; [|split; [|split]]].
  - intros r pc Hr.
    assert (Hpos : (0 < readers s)%nat).
    { rewrite (inv_readers s HI).
      destruct (size (requests s)) eqn:Hsz; [|lia].
      apply map_size_empty_inv in Hsz. rewrite Hsz in Hr.
      by rewrite lookup_empty in Hr. }
    split; [|done].
    destruct (writer s) eqn:Hw; [|done].
    pose proof (inv_exclusive s HI Hw). lia.
  - intros r current Hr.
    destruct (inv_live s HI) as (g & Hrt & Hg & _).
    exists g. rewrite (inv_current s HI r current Hr). done.
  - intros w s' Hstep. unfold step in Hstep.
    rewrite (inv_running s HI) in Hstep.
    destruct (reloads s !! w) as [[next|next|old|old]|] eqn:Hw; try done.
    apply (requests_empty s HI). by eapply (inv_writer s HI).
  - intros w s' Hstep. unfold step in Hstep.
    rewrite (inv_running s HI) in Hstep.
    destruct (reloads s !! w) as [[next|next|old|old]|] eqn:Hw; try done.
    injection Hstep as <-. exists old. split; [done|]. split; [done|].
    intros g ->.
    destruct (inv_custody s HI w _ g Hw eq_refl) as (_ & _ & Hne).
    split; [done|]. intros r Hr.
    apply Hne. symmetry. by apply (inv_current s HI r).
  - intros l s' r pc Hstep Hl Hr. unfold step in Hstep.
    rewrite (inv_running s HI) in Hstep.
    destruct l as [r'|r'|r'|r'|w|w err|w|w|w|w]; simpl in Hl;
      repeat case_match; simplify_eq; simpl; try done;
      try (rewrite lookup_insert_ne by congruence; done).
    rewrite lookup_delete_ne by congruence. done.
Qed.

(** C9. A reload whose build fails logs the failure and changes nothing
    else that a request can see: the pointer, the lock, the requests and the
    pending reloads are as before, the only engine closed is the one just
    built, the live runtime's engine stays open, the process goes on, and a
    request that arrives next is served by the runtime that was live. *)
Theorem failed_reload_keeps_runtime path labels s w err s' :
  run labels (start path None) = Some s ->
  step (BuildFail w err) s = Some s' ->
  runtime s' = runtime s
  /\ (exists g, runtime s' = Some g /\ (g ∉ closed s'))
  /\ closed s' = {[ allocated s ]} ∪ closed s
  /\ requests s' = requests s /\ reloads s' = reloads s
  /\ readers s' = readers s /\ writer s' = writer s
  /\ log s' = log s ++ [reloading s; "reload failed: " +:+ err]
  /\ exited s' = false
  /\ (forall r, requests s' !! r = None -> writer s' = false ->
       exists s'', run [RLock r; ReadRuntime r; Serve r; RUnlock r] s' = Some s''
                   /\ runtime s'' = runtime s).
Proof.
  intros Hrun Hstep.
  pose proof (run_Inv _ _ _ (start_Inv path) Hrun) as HI.
  pose proof (step_Inv _ _ _ HI Hstep) as HI'.
  destruct (inv_live s' HI') as (g & Hrt & Hg & _).
  pose proof (inv_running s' HI') as Hrun'.
  unfold step in Hstep. rewrite (inv_running s HI) in Hstep.
  destruct (reloads s !! w) eqn:Hw; [done|]. injection Hstep as <-.
  split; [done|]. split; [by exists g|]. split; [done|].
  split; [done|]. split; [done|]. split; [done|]. split; [done|].
  split; [done|]. split; [done|].
  intros r Hr Hwr. simpl in Hrun', Hr, Hwr, Hrt.
  unfold run, step. simpl. rewrite Hrun', Hr, Hwr. simpl.
  rewrite Hrun', lookup_insert_eq. simpl.
  rewrite Hrun', lookup_insert_eq, Hrt. simpl.
  rewrite Hrun', lookup_insert_eq.
  eexists. split; [reflexivity|]. by simpl.
Qed.

(** A failed first build, on the contrary, ends the process: nothing runs
    after it. *)
Lemma failed_start_exits path err l : step l (start path (Some err)) = None.
Proof. reflexivity. Qed.

Lemma reload_under_load_runs :
  run reload_under_load (start "app.lua" None) = Some after_reload.
Proof. by vm_compute. Qed.

(** The write lock is not granted while a request is in flight. *)
Example reload_waits_for_requests :
  run [RLock 1; ReadRuntime 1; BuildOk 7; WLock 7]%nat (start "app.lua" None) = None
  /\ run [RLock 1; ReadRuntime 1; BuildOk 7; SwapPtr 7]%nat (start "app.lua" None) = None
  /\ run [RLock 1; ReadRuntime 1; BuildOk 7; Close 7]%nat (start "app.lua" None) = None.
Proof. by vm_compute. Qed.

Lemma requests_keep_their_runtime_witness :
  run reload_under_load (start "app.lua" None) = Some after_reload
  /\ requests after_reload !! 3%nat = Some (ReqServing (Some 1%nat))
  /\ exists g, Some 1%nat = Some g /\ runtime after_reload = Some g
               /\ (g ∉ closed after_reload).
Proof.
  pose proof (requests_keep_their_runtime "app.lua" reload_under_load after_reload
                reload_under_load_runs) as (_ & Hcur & _).
  split; [apply reload_under_load_runs|]. split; [by vm_compute|].
  apply (Hcur 3%nat). by vm_compute.
Defined.

Lemma failed_reload_keeps_runtime_witness :
  let s' := default after_reload (step (BuildFail 8%nat "app.lua:1: syntax error") after_reload) in
  run reload_under_load (start "app.lua" None) = Some after_reload
  /\ step (BuildFail 8%nat "app.lua:1: syntax error") after_reload = Some s'
  /\ runtime s' = Some 1%nat
  /\ requests s' = {[ 3%nat := ReqServing (Some 1%nat) ]}
  /\ log s' = ["script change detected: reloading app.lua";
               "script change detected: reloading app.lua";
               "reload failed: app.lua:1: syntax error"]
  /\ exited s' = false.
Proof.
  intros s'.
  assert (Hstep : step (BuildFail 8%nat "app.lua:1: syntax error") after_reload = Some s')
    by (by vm_compute).
  pose proof (failed_reload_keeps_runtime "app.lua" reload_under_load after_reload
                8%nat "app.lua:1: syntax error" s' reload_under_load_runs Hstep)
    as (Hrt & _ & _ & Hreq & _ & _ & _ & Hlog & Hex & _).
  split; [apply reload_under_load_runs|]. split; [done|].
  split; [by rewrite Hrt|]. split; [by rewrite Hreq|].
  split; [rewrite Hlog; by vm_compute|done].
Defined.

End LifecycleFacts.

(** ** The key/value store, operation by operation *)

Module KVLaws.

Import DocStore KV.

(** X1. What [Set] stored under a key is what [Get] finds there, a second
    [Set] replaces it, and no other key is touched. *)
Theorem Get_after_Set key key' value value' s :
  Get key (Set_ key value s) = (value, true)
  /\ Set_ key value' (Set_ key value s) = Set_ key value' s
  /\ (key' <> key -> Get key' (Set_ key value s) = Get key' s).
Proof.
  unfold Get, Set_. simpl. split; [by rewrite lookup_insert_eq|].
  split; [by rewrite insert_insert_eq|].
  intros Hne. by rewrite lookup_insert_ne.
Qed.

(** X2. [Delete] reports whether the key was there; afterwards [Get] does
    not find it, every other key reads as before, and deleting a key that
    is not there leaves the store as it was. Deleting what [Set] just
    added to a store without the key gives that store back. *)
Theorem Delete_removes key key' value s :
  (Delete key s).1 = (Get key s).2
  /\ Get key (Delete key s).2 = (VNil, false)
  /\ (key' <> key -> Get key' (Delete key s).2 = Get key' s)
  /\ ((Get key s).2 = false -> Delete key s = (false, s))
  /\ ((Get key s).2 = false -> Delete key (Set_ key value s) = (true, s)).
Proof.
  unfold Get, Delete, Set_. destruct s as [d]. simpl.
  split; [by destruct (d !! key)|].
  split; [destruct (d !! key) eqn:Hk; simpl; [by rewrite lookup_delete_eq|by rewrite Hk]|].
  split; [intros Hne; destruct (d !! key); simpl; [by rewrite lookup_delete_ne|done]|].
  split; [by destruct (d !! key)|].
  rewrite lookup_insert_eq. destruct (d !! key) eqn:Hk; [done|]. intros _.
  f_equal. f_equal. rewrite delete_insert_eq. by apply delete_id.
Qed.

(** X3. Whatever order [Keys] returns them in, the keys are those [Get]
    finds, each once: as many as the store has entries. *)
Theorem Keys_each_key_once s keys :
  Keys s keys ->
  NoDup keys
  /\ length keys = size (data s)
  /\ forall key, key ∈ keys <-> (Get key s).2 = true.
Proof.
  intros Hkeys. pose proof (KVFacts.Keys_Permutation s keys Hkeys) as Hperm.
  split; [rewrite Hperm; apply NoDup_fst_map_to_list|].
  split; [by rewrite Hperm, length_fmap, length_map_to_list|].
  intros key. rewrite Hperm, list_elem_of_fmap. unfold Get. split.
  - intros ([k v] & -> & Hin). apply elem_of_map_to_list in Hin. simpl. by rewrite Hin.
  - destruct (data s !! key) as [v|] eqn:Hk; [|done]. intros _.
    exists (key, v). split; [done|]. by apply elem_of_map_to_list.
Qed.

Lemma Keys_each_key_once_witness :
  Keys crew ["grace"; "ada"; "bob"]
  /\ NoDup ["grace"; "ada"; "bob"]
  /\ (Get "bob" crew).2 = true.
Proof.
  assert (Hk : Keys crew ["grace"; "ada"; "bob"]).
  { exists [("grace", VBool true); ("ada", VString "pilot"); ("bob", VNil)].
    split; [|reflexivity]. vm_compute. reflexivity. }
  pose proof (Keys_each_key_once crew _ Hk) as (Hnd & _ & Hget).
  split; [done|]. split; [done|]. apply Hget. rewrite !elem_of_cons. auto.
Defined.

End KVLaws.

(** ** The document store: how the operations compose *)

Module DocStoreLaws.

Import DocStore DocStoreFacts.

Section Store.

Context {strconv : Strconv}.

Lemma Update_unfold io collection criteria updates s :
  collection <> "" ->
  Update io collection criteria updates s =
  (match saveLocked io s with
   | Some err => (0, Some err)
   | None => (Z.of_nat (length (filter (fun r => matches r criteria = true)
                                  (data s !!! collection))), None)
   end,
   {| path := path s;
      data := <[collection := (fun r => if matches r criteria then updates ∪ r else r)
                                <$> (data s !!! collection)]> (data s);
      nextID := nextID s |}).
Proof.
  intros Hc. unfold Update. rewrite decide_False by done.
  rewrite update_loop. simpl.
  erewrite (saveLocked_path io s) by done. by destruct (saveLocked io s).
Qed.

Lemma Delete_unfold io collection criteria s :
  collection <> "" ->
  Delete io collection criteria s =
  (match saveLocked io s with
   | Some err => (0, Some err)
   | None => (Z.of_nat (length (filter (fun r => matches r criteria = true)
                                  (data s !!! collection))), None)
   end,
   {| path := path s;
      data := <[collection := filter (fun r => matches r criteria <> true)
                                (data s !!! collection)]> (data s);
      nextID := nextID s |}).
Proof.
  intros Hc. unfold Delete. rewrite decide_False by done.
  rewrite delete_loop. simpl.
  erewrite (saveLocked_path io s) by done. by destruct (saveLocked io s).
Qed.

Lemma Query_unfold collection criteria s :
  collection <> "" ->
  Query collection criteria s =
  ((filter (fun r => matches r criteria = true) (data s !!! collection), None), s).
Proof.
  intros Hc. unfold Query. rewrite decide_False by done. by rewrite query_loop.
Qed.

Lemma filter_none {A} (P : A -> Prop) `{!forall x, Decision (P x)} (l : list A) :
  (forall x, ~ P x) -> filter P l = [].
Proof.
  intros HP. induction l as [|x l IH]; [done|].
  rewrite filter_cons. by rewrite decide_False.
Qed.

(** X4. [Insert] appends one record to its collection and touches no other
    collection, whether or not the save succeeds. The record it stores has
    every field of the one supplied, and an ["id"]; a [Query] afterwards
    returns what it returned before, followed by the new record when that
    matches; and the record [Insert] returns is the one stored. *)
Theorem Query_after_Insert io collection collection' record criteria s :
  collection <> "" ->
  let s' := (Insert io collection record s).2 in
  exists stored,
    data s' !!! collection = (data s !!! collection) ++ [stored]
    /\ default ∅ record ⊆ stored
    /\ is_Some (stored !! "id")
    /\ (Query collection criteria s').1.1
       = (Query collection criteria s).1.1
         ++ (if matches stored criteria then [stored] else [])
    /\ (collection' <> collection -> data s' !! collection' = data s !! collection')
    /\ (forall r, (Insert io collection record s).1.1 = Some r -> r = stored).
Proof.
  intros Hc s'. subst s'. rewrite (Insert_unfold io collection record s Hc).
  cbv zeta. cbn [fst snd data].
  set (r := default ∅ record).
  set (stored := match r !! "id" with
                 | Some _ => r
                 | None => <["id" := VInt (nextID s)]> r
                 end).
  exists stored.
  split; [by rewrite lookup_total_insert_eq|].
  split; [subst stored; destruct (r !! "id") eqn:Hid; [done|by apply insert_subseteq]|].
  split; [subst stored; destruct (r !! "id") eqn:Hid;
          [by rewrite Hid|by rewrite lookup_insert_eq]|].
  split.
  { rewrite !Query_unfold by done. cbn [fst snd data].
    rewrite lookup_total_insert_eq, filter_app. f_equal.
    rewrite filter_cons, filter_nil. by destruct (matches stored criteria). }
  split; [intros Hne; by rewrite lookup_insert_ne|].
  intros r0. destruct (saveLocked io s); simpl; [done|]. by intros [= <-].
Qed.

(** X5. After [Delete], a [Query] with the same criteria finds nothing, and
    a [Query] with other criteria finds what it found before less the
    records deleted, in the same order. When the save succeeds the count
    returned is the number of records the criteria matched. The records
    left and the records matched add up to the collection as it was, and
    the id counter is not touched. *)
Theorem Query_after_Delete io collection criteria criteria' s :
  collection <> "" ->
  let s' := (Delete io collection criteria s).2 in
  (Query collection criteria s').1.1 = []
  /\ (Query collection criteria' s').1.1
     = filter (fun r => matches r criteria <> true) (Query collection criteria' s).1.1
  /\ (saveLocked io s = None ->
      (Delete io collection criteria s).1
      = (Z.of_nat (length (Query collection criteria s).1.1), None))
  /\ length (data s !!! collection)
     = (length (Query collection criteria s).1.1 + length (data s' !!! collection))%nat
  /\ nextID s' = nextID s.
Proof.
  intros Hc s'. subst s'. rewrite (Delete_unfold io collection criteria s Hc).
  rewrite !Query_unfold by done. cbn [fst snd data nextID].
  rewrite lookup_total_insert_eq.
  split.
  { rewrite list_filter_filter. apply filter_none. by intros r [H1 H2]. }
  split.
  { rewrite !list_filter_filter. apply list_filter_iff. intros r. tauto. }
  split; [by intros ->|].
  split; [|done].
  rewrite <- length_app. apply Permutation_length. symmetry.
  apply filter_app_complement.
Qed.

(** X6. [Update] keeps the collection's length and order. A record that
    matches gets every field of [updates] and keeps its other fields; a
    record that does not match is left as it is. When the save succeeds
    the count returned is the number of records that matched. No other
    collection and not the id counter is touched. *)
Theorem Update_overlays io collection collection' criteria updates s :
  collection <> "" ->
  let s' := (Update io collection criteria updates s).2 in
  length (data s' !!! collection) = length (data s !!! collection)
  /\ (forall i r, (data s !!! collection) !! i = Some r ->
        exists r', (data s' !!! collection) !! i = Some r'
          /\ if matches r criteria
             then (forall key value, updates !! key = Some value ->
                                     r' !! key = Some value)
                  /\ (forall key, updates !! key = None -> r' !! key = r !! key)
             else r' = r)
  /\ (saveLocked io s = None ->
      (Update io collection criteria updates s).1
      = (Z.of_nat (length (Query collection criteria s).1.1), None))
  /\ (collection' <> collection -> data s' !! collection' = data s !! collection')
  /\ nextID s' = nextID s.
Proof.
  intros Hc s'. subst s'. rewrite (Update_unfold io collection criteria updates s Hc).
  rewrite !Query_unfold by done. cbn [fst snd data nextID].
  rewrite lookup_total_insert_eq.
  split; [by rewrite length_fmap|].
  split.
  { intros i r Hi. rewrite list_lookup_fmap, Hi. simpl.
    eexists. split; [done|].
    destruct (matches r criteria); [|done].
    split.
    - intros key value Hk. by apply lookup_union_Some_l.
    - intros key Hk. by apply lookup_union_r. }
  split; [by intros ->|].
  split; [intros Hne; by rewrite lookup_insert_ne|done].
Qed.

Lemma after_path c s : path (after c s) = path s.
Proof.
  destruct c as [collection criteria|io collection record
                |io collection criteria updates|io collection criteria]; simpl.
  - unfold Query. by case_decide.
  - destruct (decide (collection = "")) as [->|Hc]; [done|].
    by rewrite (Insert_unfold io collection record s Hc).
  - destruct (decide (collection = "")) as [->|Hc]; [done|].
    by rewrite (Update_unfold io collection criteria updates s Hc).
  - destruct (decide (collection = "")) as [->|Hc]; [done|].
    by rewrite (Delete_unfold io collection criteria s Hc).
Qed.

Lemma run_path calls s : path (run calls s) = path s.
Proof.
  revert s. induction calls as [|c calls IH]; intros s; simpl; [done|].
  by rewrite IH, after_path.
Qed.

(** X7. A store opened with the empty path stays one over any calls, and
    no call on it with a collection name fails, whatever the file system
    would answer: nothing is written. *)
Theorem memory_store_never_fails calls io collection record criteria updates s :
  path s = "" -> collection <> "" ->
  let s' := run calls s in
  path s' = ""
  /\ (Query collection criteria s').1.2 = None
  /\ (exists stored, (Insert io collection record s').1 = (Some stored, None))
  /\ (exists updated, (Update io collection criteria updates s').1 = (updated, None))
  /\ (exists deleted, (Delete io collection criteria s').1 = (deleted, None)).
Proof.
  intros Hp Hc s'.
  assert (Hp' : path s' = "") by (subst s'; by rewrite run_path).
  assert (Hsave : saveLocked io s' = None)
    by (unfold saveLocked; by rewrite decide_True).
  split; [done|].
  split; [by rewrite Query_unfold|].
  split; [rewrite (Insert_unfold io collection record s' Hc); cbv zeta;
          rewrite Hsave; by eexists|].
  split; [rewrite (Update_unfold io collection criteria updates s' Hc);
          rewrite Hsave; by eexists|].
  rewrite (Delete_unfold io collection criteria s' Hc). rewrite Hsave. by eexists.
Qed.

(** X8. Criteria only narrow: with more criteria, [Query] returns some of
    the records it returns with fewer, in the same order. *)
Theorem more_criteria_fewer_records collection criteria criteria' s :
  criteria ⊆ criteria' ->
  sublist (Query collection criteria' s).1.1 (Query collection criteria s).1.1.
Proof.
  intros Hsub. destruct (decide (collection = "")) as [->|Hc]; [done|].
  rewrite !Query_unfold by done. cbn [fst].
  rewrite <- (list_filter_filter_l (fun r => matches r criteria' = true)
                                   (fun r => matches r criteria = true)).
  - apply sublist_filter.
  - intros r. rewrite !matches_spec. intros H key expected Hk.
    apply H. by eapply lookup_weaken.
Qed.

(** X9. Once every record of a store has an ["id"], every record has one
    after any calls: [Insert] gives one to the record it adds, [Update]
    overwrites fields but removes none, [Delete] and [Query] change no
    record. *)
Theorem records_keep_an_id calls s :
  (forall c rs r, data s !! c = Some rs -> r ∈ rs -> is_Some (r !! "id")) ->
  forall c rs r, data (run calls s) !! c = Some rs -> r ∈ rs -> is_Some (r !! "id").
Proof.
  revert s. induction calls as [|call calls IH]; intros s Hs; simpl; [done|].
  apply IH. clear IH. intros c rs r Hc Hr.
  destruct call as [collection criteria|io collection record
                   |io collection criteria updates|io collection criteria];
    simpl in Hc.
  - unfold Query in Hc. case_decide; by eapply Hs.
  - destruct (decide (collection = "")) as [->|Hne]; [by eapply Hs|].
    rewrite (Insert_unfold io collection record s Hne) in Hc. simpl in Hc.
    destruct (decide (c = collection)) as [->|Hcc].
    + rewrite lookup_insert_eq in Hc. injection Hc as <-.
      apply elem_of_app in Hr as [Hr|Hr].
      * destruct (data s !! collection) as [old|] eqn:Hold.
        -- rewrite lookup_total_alt, Hold in Hr. by eapply Hs.
        -- rewrite lookup_total_alt, Hold in Hr. by apply elem_of_nil in Hr.
      * apply list_elem_of_singleton in Hr as ->.
        destruct (default ∅ record !! "id") eqn:Hid;
          [by rewrite Hid|by rewrite lookup_insert_eq].
    + rewrite lookup_insert_ne in Hc by done. by eapply Hs.
  - destruct (decide (collection = "")) as [->|Hne]; [by eapply Hs|].
    rewrite (Update_unfold io collection criteria updates s Hne) in Hc. simpl in Hc.
    destruct (decide (c = collection)) as [->|Hcc].
    + rewrite lookup_insert_eq in Hc. injection Hc as <-.
      apply list_elem_of_fmap in Hr as (r0 & -> & Hr0).
      assert (is_Some (r0 !! "id")) as Hid.
      { destruct (data s !! collection) as [old|] eqn:Hold.
        - rewrite lookup_total_alt, Hold in Hr0. by eapply Hs.
        - rewrite lookup_total_alt, Hold in Hr0. by apply elem_of_nil in Hr0. }
      destruct (matches r0 criteria); [|done].
      apply lookup_union_is_Some. by right.
    + rewrite lookup_insert_ne in Hc by done. by eapply Hs.
  - destruct (decide (collection = "")) as [->|Hne]; [by eapply Hs|].
    rewrite (Delete_unfold io collection criteria s Hne) in Hc. simpl in Hc.
    destruct (decide (c = collection)) as [->|Hcc].
    + rewrite lookup_insert_eq in Hc. injection Hc as <-.
      apply list_elem_of_filter in Hr as [_ Hr].
      destruct (data s !! collection) as [old|] eqn:Hold.
      * rewrite lookup_total_alt, Hold in Hr. by eapply Hs.
      * rewrite lookup_total_alt, Hold in Hr. by apply elem_of_nil in Hr.
    + rewrite lookup_insert_ne in Hc by done. by eapply Hs.
Qed.

End Store.

#[local] Existing Instance strconv_decimal.

Lemma store_ada_data :
  data store_ada = {[ "users" := [<["id" := VInt 1]> ada] ]}.
Proof. by vm_compute. Qed.

Lemma Query_after_Insert_witness :
  exists stored,
    data (Insert io_readonly "users" (Some ada) store_ada).2 !!! "users"
    = (data store_ada !!! "users") ++ [stored]
    /\ ada ⊆ stored
    /\ is_Some (stored !! "id").
Proof.
  destruct (Query_after_Insert io_readonly "users" "crew" (Some ada) ∅ store_ada
              ltac:(done)) as (stored & Hdata & Hsub & Hid & _).
  exists stored. split; [exact Hdata|]. split; [exact Hsub|exact Hid].
Defined.

Lemma Query_after_Delete_witness :
  let pilots : Record := {[ "role" := VString "pilot" ]} in
  (Query "users" pilots store_ada).1.1 = [<["id" := VInt 1]> ada]
  /\ (Query "users" pilots (Delete io_ok "users" pilots store_ada).2).1.1 = []
  /\ (Delete io_ok "users" pilots store_ada).1 = (1, None).
Proof.
  intros pilots.
  destruct (Query_after_Delete io_ok "users" pilots ∅ store_ada ltac:(done))
    as (Hnone & _ & Hcount & _).
  split; [by vm_compute|]. split; [done|].
  rewrite Hcount; by vm_compute.
Defined.

Lemma Update_overlays_witness :
  let pilots : Record := {[ "role" := VString "pilot" ]} in
  let promoted : Record := {[ "role" := VString "commander" ]} in
  exists r',
    (data (Update io_ok "users" pilots promoted store_ada).2 !!! "users") !! 0%nat
    = Some r'
    /\ r' !! "role" = Some (VString "commander")
    /\ r' !! "name" = Some (VString "Ada").
Proof.
  intros pilots promoted.
  destruct (Update_overlays io_ok "users" "crew" pilots promoted store_ada ltac:(done))
    as (_ & Hrec & _).
  destruct (Hrec 0%nat (<["id" := VInt 1]> ada) ltac:(by vm_compute))
    as (r' & Hr' & Hfields).
  replace (matches (<["id" := VInt 1]> ada) pilots) with true in Hfields
    by (by vm_compute).
  destruct Hfields as [Hnew Hold].
  exists r'. split; [done|]. split; [by apply Hnew|].
  rewrite Hold; by vm_compute.
Defined.

Lemma memory_store_never_fails_witness :
  path memory_store = ""
  /\ exists stored,
       (Insert io_readonly "users" (Some ada)
          (run [CallInsert io_readonly "users" None] memory_store)).1
       = (Some stored, None).
Proof.
  split; [done|].
  destruct (memory_store_never_fails [CallInsert io_readonly "users" None]
              io_readonly "users" (Some ada) ∅ ∅ memory_store
              ltac:(done) ltac:(done)) as (_ & _ & Hinsert & _).
  exact Hinsert.
Defined.

Lemma more_criteria_fewer_records_witness :
  let pilots : Record := {[ "role" := VString "pilot" ]} in
  pilots ⊆ ada
  /\ sublist (Query "users" ada store_ada).1.1 (Query "users" pilots store_ada).1.1.
Proof.
  intros pilots.
  assert (Hsub : pilots ⊆ ada) by (by apply insert_subseteq).
  split; [done|]. by apply more_criteria_fewer_records.
Defined.

Lemma records_keep_an_id_witness :
  let calls := [CallUpdate io_ok "users" ∅ {[ "role" := VString "commander" ]};
                CallInsert io_readonly "users" None] in
  forall c rs r, data (run calls store_ada) !! c = Some rs -> r ∈ rs ->
                 is_Some (r !! "id").
Proof.
  intros calls. apply (records_keep_an_id calls store_ada).
  intros c rs r Hc Hr. rewrite store_ada_data in Hc.
  apply lookup_singleton_Some in Hc as [_ <-].
  apply list_elem_of_singleton in Hr as ->. by eexists.
Defined.

End DocStoreLaws.
